(** * Rotary positional embeddings: the adaptive dynamic-NTK cache

    A shallow embedding of [vllm/model_executor/layers/rotary_embedding.py]:
    the cache builders of [RotaryEmbedding],
    [LinearScalingRotaryEmbedding] and [DynamicNTKScalingRotaryEmbedding],
    the forward of these static variants, and the recompute policy and the
    per-sample forward loop of [DynamicNTKScalingRotaryEmbeddingQwen].

    Conventions.
    - Python [int]s are [Z].  Python exceptions are values of [exn]; a
      function that may raise returns a [result].
    - Floating-point scalars and tensor entries are elements of a type [F]
      with the operations of the class [FloatOps]; nothing is assumed about
      them, so every statement holds for any deterministic arithmetic.  The
      operations are total: overflow of a float operation is not modelled.
    - [get_ntk_alpha] only produces integers.  It is embedded twice.
      [AlphaFloat.get_ntk_alpha] follows lines 217-219 over the float
      operations of the interpreter (class [PyMath], with the binary64
      instance [Binary64.binary64]); the statements about the values of
      alpha are about it.  [Alpha.get_ntk_alpha] reads
      [math.log(t / r, 2)] over the exact reals, as integer arithmetic
      proved equal to the real-number formula ([get_ntk_alpha_real]); the
      recompute policy is stated over it, and its statements take alpha as
      whatever the call returns.  The two agree wherever the float value
      has the ceiling of the real one.
    - Tensors are lists of rows; a slice of a tensor is a view (offset and
      row count) into the shared buffer, as in torch. *)

From Stdlib Require Import ZArith List Bool Lia Reals Lra Sorted.
From Stdlib Require PrimFloat FloatOps SpecFloat Uint63.
Import ListNotations.
Open Scope Z_scope.

(** ** Exceptions *)

Inductive exn : Type :=
| ZeroDivisionError   (* int / 0, float / 0 *)
| ValueError          (* math domain error *)
| RuntimeError.       (* raised by torch *)

Inductive result (A : Type) : Type :=
| Ok (a : A)
| Raise (e : exn).
Arguments Ok {A} a.
Arguments Raise {A} e.

Definition bind {A B} (m : result A) (k : A -> result B) : result B :=
  match m with
  | Ok a => k a
  | Raise e => Raise e
  end.

Notation "x <- m ;; k" := (bind m (fun x => k))
  (at level 61, m at next level, right associativity).

(** ** The alpha function *)

Module Alpha.

(** [ceil_log2_ratio t r], for [0 < t] and [0 < r], is
    [math.ceil(math.log(t / r, 2))] over the exact reals: the least integer
    [k] with [t <= r * 2^k]. *)
Definition ceil_log2_ratio (t r : Z) : Z :=
  if t <=? r then - Z.log2 (r / t) else Z.log2_up ((t + r - 1) / r).

(** [2 ** c - 1] followed by [max(_, 1)].  For [c < 0] Python computes the
    float [2.0 ** c], which lies strictly between 0 and 1, so the maximum
    is the integer 1. *)
Definition pow2_minus_1_max1 (c : Z) : Z :=
  if c <? 0 then 1 else Z.max (2 ^ c - 1) 1.

(** [DynamicNTKScalingRotaryEmbeddingQwen.get_ntk_alpha].
    [true_seq_len / self._config_seq_length] raises on a zero divisor, and
    [math.log] raises on a quotient that is not positive. *)
Definition get_ntk_alpha (config_seq_length true_seq_len : Z) : result Z :=
  if config_seq_length =? 0 then Raise ZeroDivisionError
  else if true_seq_len * config_seq_length <=? 0 then Raise ValueError
  else
    let context_value_ceil :=
      ceil_log2_ratio (Z.abs true_seq_len) (Z.abs config_seq_length) + 1 in
    Ok (pow2_minus_1_max1 context_value_ceil).

(** The formula as the specification writes it, over the reals. *)
Definition Rceil (x : R) : Z := - Int_part (- x).


End Alpha.

(** ** The alpha function as the interpreter computes it *)

(** The float operations of lines 217-218: [a / b] on two integers (the
    float nearest the quotient), [math.log(x, base)] on a positive float,
    [x + n] for an integer [n], and [math.ceil].  They are taken total:
    overflow, and a quotient that rounds to zero, are not modelled. *)
Class PyMath (F : Type) : Type := {
  int_true_div : Z -> Z -> F;
  math_log : F -> Z -> F;
  float_add_int : F -> Z -> F;
  math_ceil : F -> Z
}.

Module AlphaFloat.

(** [DynamicNTKScalingRotaryEmbeddingQwen.get_ntk_alpha], line by line.
    The quotient has the sign of [true_seq_len * config_seq_length], and
    [math.log] raises when it is not positive.  [2 ** c - 1] and the
    maximum with 1 are integer arithmetic ([Alpha.pow2_minus_1_max1]). *)
Definition get_ntk_alpha {F : Type} `{PyMath F}
    (config_seq_length true_seq_len : Z) : result Z :=
  if config_seq_length =? 0 then Raise ZeroDivisionError
  else if true_seq_len * config_seq_length <=? 0 then Raise ValueError
  else
    let context_value :=
      float_add_int (math_log (int_true_div true_seq_len config_seq_length) 2) 1 in
    let ntk_alpha := Alpha.pow2_minus_1_max1 (math_ceil context_value) in
    Ok ntk_alpha.

End AlphaFloat.

(** ** Binary64

    The interpreter's floats, on the primitive binary64 numbers: the
    arithmetic is IEEE division and addition.  [math.log(x, base)] is
    [log(x) / log(base)] with the natural logarithm of the C library, which
    is given here at the arguments the runs below use, as the doubles
    CPython's [math.log] returns for them.  Integers are converted exactly
    below [2^53], where the quotient of the conversions is the correctly
    rounded quotient that [a / b] returns. *)

Module Binary64.
Import PrimFloat.

Definition of_Z (z : Z) : float :=
  if z <? 0 then PrimFloat.opp (PrimFloat.of_uint63 (Uint63.of_Z (- z)))
  else PrimFloat.of_uint63 (Uint63.of_Z z).

Definition libm_log (x : float) : float :=
  if PrimFloat.eqb x 1%float then 0%float
  else if PrimFloat.eqb x 2%float then 0x1.62e42fefa39efp-1%float
  else if PrimFloat.eqb x 4%float then 0x1.62e42fefa39efp+0%float
  else if PrimFloat.eqb x 0x1.0008p+0%float then 0x1.fff8002aa9aabp-14%float
  else if PrimFloat.eqb x 1.25%float then 0x1.c8ff7c79a9a22p-3%float
  else if PrimFloat.eqb x 0.25%float then (-0x1.62e42fefa39efp+0)%float
  else if PrimFloat.eqb x 536870912%float then 0x1.419ecb712c481p+4%float
  else PrimFloat.nan.

(** [math.ceil] of a finite float, from its sign, mantissa and exponent. *)
Definition ceil (x : float) : Z :=
  match FloatOps.Prim2SF x with
  | SpecFloat.S754_finite s m e =>
      if 0 <=? e then (if s then - (Z.pos m * 2 ^ e) else Z.pos m * 2 ^ e)
      else
        let d := 2 ^ (- e) in
        let q := Z.pos m / d in
        if s then - q
        else if Z.pos m mod d =? 0 then q else q + 1
  | _ => 0
  end.

#[global] Instance binary64 : PyMath float := {|
  int_true_div := fun a b => PrimFloat.div (of_Z a) (of_Z b);
  math_log := fun x base => PrimFloat.div (libm_log x) (libm_log (of_Z base));
  float_add_int := fun x n => PrimFloat.add x (of_Z n);
  math_ceil := ceil
|}.

End Binary64.

(** ** Floating-point scalars *)

(** The arithmetic the source performs on Python floats and on the entries
    of float tensors.  [of_int] is the conversion of an integer (the float
    literal [1.0] is [of_int 1]); [arange_len x] is the number of elements
    of [torch.arange(x)] for a float bound [x]: the ceiling of [x] when
    [x] is not negative, and a negative number when [x] is negative, where
    [torch.arange] raises. *)
Class FloatOps (F : Type) : Type := {
  of_int : Z -> F;
  fmul : F -> F -> F;
  fdiv : F -> F -> F;
  fsub : F -> F -> F;
  fpow : F -> F -> F;
  fcos : F -> F;
  fsin : F -> F;
  to_dtype : F -> F;
  arange_len : F -> Z
}.

(** The external rotation kernel, one token row at a time:
    [rotate_row head_size cos_sin_cache is_neox_style position row].  The
    position is [None] when the kernel is handed fewer positions than
    rows: such a call is outside the contract of the kernel, and what it
    writes there is this unknown function of the row, nothing more. *)
Class RotaryKernel (F : Type) : Type := {
  rotate_row : Z -> list (list F) -> bool -> option Z -> list F -> list F
}.

(** ** Tensor operations *)

Module Torch.

(** [torch.arange(start, stop, step)] for a positive step. *)
Definition arange (start stop step : Z) : result (list Z) :=
  if stop <? start then Raise RuntimeError
  else Ok (map (fun i => start + step * Z.of_nat i)
               (seq 0 (Z.to_nat ((stop - start + step - 1) / step)))).

(** [torch.einsum("i,j -> ij", t, inv_freq)]. *)
Definition einsum_outer {F} `{FloatOps F} (t inv_freq : list F) : list (list F) :=
  map (fun ti => map (fun fj => fmul ti fj) inv_freq) t.

(** [torch.cat((a, b), dim=-1)] of two matrices with the same rows. *)
Definition cat_last {A} (a b : list (list A)) : list (list A) :=
  map (fun p => fst p ++ snd p) (combine a b).

(** [torch.cat(tensors, dim=0)]; torch rejects an empty list. *)
Definition cat {A} (tensors : list (list A)) : result (list A) :=
  match tensors with
  | [] => Raise RuntimeError
  | _ :: _ => Ok (concat tensors)
  end.

(** A basic slice of a tensor is a view: first row and number of rows. *)
Definition view : Type := (nat * nat)%type.

(** Index adjustment of [x[start:stop]] on a dimension of size [n]:
    negative indices count from the end, then both are clamped. *)
Definition adjust_index (n i : Z) : Z :=
  let i := if i <? 0 then i + n else i in
  if i <? 0 then 0 else if n <? i then n else i.

Definition slice (n : nat) (start : Z) (stop : option Z) : view :=
  let lo := adjust_index (Z.of_nat n) start in
  let hi := match stop with
            | Some e => adjust_index (Z.of_nat n) e
            | None => Z.of_nat n
            end in
  (Z.to_nat lo, Z.to_nat (hi - lo)).

Definition view_rows {A} (v : view) (buf : list A) : list A :=
  firstn (snd v) (skipn (fst v) buf).

Fixpoint imap_from {A B} (f : nat -> A -> B) (k : nat) (l : list A) : list B :=
  match l with
  | [] => []
  | x :: l' => f k x :: imap_from f (S k) l'
  end.

(** In-place update through a view: row [k] of the view becomes [f k row];
    rows of the buffer outside the view are untouched. *)
Definition rewrite_rows {A} (f : nat -> A -> A) (v : view) (buf : list A) : list A :=
  firstn (fst v) buf ++ imap_from f 0 (view_rows v buf) ++ skipn (fst v + snd v) buf.

End Torch.

(** ** Cache builders *)

Section Builders.
Context {F : Type} `{FloatOps F}.

Record Config : Type := {
  head_size : Z;
  rotary_dim : Z;
  max_position_embeddings : Z;
  base : Z;
  is_neox_style : bool
}.

(** Python's [a / b] on integers. *)
Definition true_div (a b : Z) : result F :=
  if b =? 0 then Raise ZeroDivisionError else Ok (fdiv (of_int a) (of_int b)).

(** Python's [x / b] for a float [x] and an integer [b]. *)
Definition float_div_int (x : F) (b : Z) : result F :=
  if b =? 0 then Raise ZeroDivisionError else Ok (fdiv x (of_int b)).

(** [RotaryEmbedding._compute_inv_freq] *)
Definition _compute_inv_freq (self : Config) (base : F) : result (list F) :=
  idx <- Torch.arange 0 (rotary_dim self) 2 ;;
  Ok (map (fun i => fdiv (of_int 1)
                      (fpow base (fdiv (of_int i) (of_int (rotary_dim self))))) idx).

(** The four lines shared by every builder: outer product of the positions
    [t] with [inv_freq], then cosines and sines side by side. *)
Definition cos_sin_table (t inv_freq : list F) : list (list F) :=
  let freqs := Torch.einsum_outer t inv_freq in
  let cos := map (map fcos) freqs in
  let sin := map (map fsin) freqs in
  Torch.cat_last cos sin.

(** [RotaryEmbedding._compute_cos_sin_cache] *)
Definition _compute_cos_sin_cache (self : Config) : result (list (list F)) :=
  inv_freq <- _compute_inv_freq self (of_int (base self)) ;;
  t <- Torch.arange 0 (max_position_embeddings self) 1 ;;
  Ok (cos_sin_table (map of_int t) inv_freq).

(** [DynamicNTKScalingRotaryEmbedding._compute_cos_sin_cache] *)
Definition ntk_compute_cos_sin_cache (scaling_factor : F) (self : Config)
  : result (list (list F)) :=
  let max_len := fmul (of_int (max_position_embeddings self)) scaling_factor in
  q <- float_div_int (fmul scaling_factor max_len) (max_position_embeddings self) ;;
  e <- true_div (rotary_dim self) (rotary_dim self - 2) ;;
  let base := fmul (of_int (base self))
                (fpow (fsub q (fsub scaling_factor (of_int 1))) e) in
  inv_freq <- _compute_inv_freq self base ;;
  t <- Torch.arange 0 (arange_len max_len) 1 ;;
  Ok (cos_sin_table (map of_int t) inv_freq).

(** [RotaryEmbedding.__init__]: the builder is the method of the class
    being constructed; the buffer [cos_sin_cache] is its result in the
    default dtype. *)
Definition RotaryEmbedding_init
    (compute : Config -> result (list (list F))) (self : Config)
  : result (list (list F)) :=
  cache <- compute self ;;
  Ok (map (map to_dtype) cache).

(** [DynamicNTKScalingRotaryEmbedding.__init__] *)
Definition DynamicNTKScalingRotaryEmbedding_init
    (self : Config) (scaling_factor : F) : result (list (list F)) :=
  RotaryEmbedding_init (ntk_compute_cos_sin_cache scaling_factor) self.

(** Closed forms used to state what a builder produces: the inverse
    frequencies for an effective base, and the row of a table at a
    position index. *)
Definition inv_freq_of (rotary_dim : Z) (base : F) : list F :=
  map (fun j => fdiv (of_int 1)
                  (fpow base (fdiv (of_int (2 * Z.of_nat j)) (of_int rotary_dim))))
      (seq 0 (Z.to_nat ((rotary_dim + 1) / 2))).

Definition table_row (inv_freq : list F) (p : F) : list F :=
  map (fun f => fcos (fmul p f)) inv_freq ++ map (fun f => fsin (fmul p f)) inv_freq.

End Builders.

(** ** The adaptive variant *)

Section Adaptive.
Context {F : Type} `{FloatOps F} `{RotaryKernel F}.

(** The attributes of a [DynamicNTKScalingRotaryEmbeddingQwen] instance.
    [_ntk_alpha_cached] starts as the float [1.0] and is afterwards an
    integer; Python compares the two numerically, so it is kept in [Z]. *)
Record Qwen : Type := {
  config : Config;
  _config_seq_length : Z;
  _seq_len_cached : Z;
  _ntk_alpha_cached : Z;
  cos_sin_cache : list (list F)
}.

(** [DynamicNTKScalingRotaryEmbeddingQwen.__init__]; the class inherits
    [_compute_cos_sin_cache] from [RotaryEmbedding]. *)
Definition Qwen_init (cfg : Config) (seq_length : Z) : result Qwen :=
  cache <- RotaryEmbedding_init _compute_cos_sin_cache cfg ;;
  Ok {| config := cfg;
        _config_seq_length := seq_length;
        _seq_len_cached := 0;
        _ntk_alpha_cached := 1;
        cos_sin_cache := cache |}.

(** The test of [_update_cos_sin_cache]. *)
Definition needs_rebuild (self : Qwen) (max_seq_len ntk_alpha : Z) : bool :=
  (_seq_len_cached self <? max_seq_len) || negb (ntk_alpha =? _ntk_alpha_cached self).

(** [DynamicNTKScalingRotaryEmbeddingQwen._update_cos_sin_cache].  The
    statements that can raise (the alpha, the exponent, the inverse
    frequencies) precede the first assignment to [self], and
    [torch.arange] of a bound that is at least 16 does not raise, so an
    exception leaves the instance as it was. *)
Definition _update_cos_sin_cache (self : Qwen) (max_seq_len : Z) : result Qwen :=
  ntk_alpha <- Alpha.get_ntk_alpha (_config_seq_length self) max_seq_len ;;
  if needs_rebuild self max_seq_len ntk_alpha then
    let rd := rotary_dim (config self) in
    e <- true_div rd (rd - 2) ;;
    let base := fmul (of_int (base (config self))) (fpow (of_int ntk_alpha) e) in
    inv_freq <- _compute_inv_freq (config self) base ;;
    let seq_len_cached := Z.max (2 * max_seq_len) 16 in
    t <- Torch.arange 0 seq_len_cached 1 ;;
    let cache := cos_sin_table (map of_int t) inv_freq in
    Ok {| config := config self;
          _config_seq_length := _config_seq_length self;
          _seq_len_cached := seq_len_cached;
          _ntk_alpha_cached := ntk_alpha;
          cos_sin_cache := map (map to_dtype) cache |}
  else Ok self.

(** A sequence of calls of [_update_cos_sin_cache] on one instance: for
    each call, the exception it raised, if any, and the instance after
    it. *)
Fixpoint update_calls (self : Qwen) (lens : list Z) : list (option exn * Qwen) :=
  match lens with
  | [] => []
  | max_seq_len :: rest =>
      match _update_cos_sin_cache self max_seq_len with
      | Ok self' => (None, self') :: update_calls self' rest
      | Raise e => (Some e, self) :: update_calls self rest
      end
  end.

(** *** forward *)

Record InputMetadata : Type := {
  prompt_lens : list Z;
  context_lens : list Z
}.

(** Lines 238-244 of [forward]: the sequence lengths and [is_continue]. *)
Definition select_seq_lens (input_metadata : InputMetadata) : bool * list Z :=
  if (0 <? length (prompt_lens input_metadata))%nat
  then (false, prompt_lens input_metadata)
  else (true, context_lens input_metadata).

(** What the loop of [forward] reads and writes: the instance, the
    [query] and [key] tensors of the caller (updated in place by the
    kernel), the two lists of views and [_prev]. *)
Record LoopState : Type := {
  self_ : Qwen;
  query_buf : list (list F);
  key_buf : list (list F);
  query_list : list Torch.view;
  key_list : list Torch.view;
  _prev : Z
}.

(** [pos_encoding_ops.rotary_embedding] on a positions slice and on views
    of [query] and [key]: one kernel block per row of the query view,
    which rotates that row and, where the key view has it, the row of the
    key view with the same index.  The contract of the kernel is that the
    three have the same number of rows, and then this is the kernel row by
    row; on other calls the definition only fixes that the update is in
    place, and the statements that cover such calls use nothing else. *)
Definition rotary_embedding (positions : list Z) (qv kv : Torch.view)
    (self : Qwen) (q k : list (list F)) : list (list F) * list (list F) :=
  let rot := fun (j : nat) (row : list F) =>
    rotate_row (head_size (config self)) (cos_sin_cache self)
               (is_neox_style (config self)) (nth_error positions j) row in
  (Torch.rewrite_rows rot qv q,
   Torch.rewrite_rows rot (fst kv, Nat.min (snd kv) (snd qv)) k).

(** The body of [for i, seq_len in enumerate(seq_lens)].  The result is
    the state reached, with the exception that stopped the loop if any. *)
Fixpoint forward_loop (positions : list Z) (is_continue : bool) (batch_size : Z)
    (i : Z) (seq_lens : list Z) (st : LoopState) : option exn * LoopState :=
  match seq_lens with
  | [] => (None, st)
  | seq_len :: rest =>
      let _start := _prev st in
      let _end := if is_continue then _start + 1 else _start + seq_len in
      let stop := if negb (i =? batch_size - 1) then Some _end else None in
      let _query := Torch.slice (length (query_buf st)) _start stop in
      let _key := Torch.slice (length (key_buf st)) _start stop in
      let _positions :=
        Torch.view_rows (Torch.slice (length positions) _start stop) positions in
      match _update_cos_sin_cache (self_ st) seq_len with
      | Raise e => (Some e, st)
      | Ok self' =>
          let qk := rotary_embedding _positions _query _key self'
                      (query_buf st) (key_buf st) in
          forward_loop positions is_continue batch_size (i + 1) rest
            {| self_ := self';
               query_buf := fst qk;
               key_buf := snd qk;
               query_list := query_list st ++ [_query];
               key_list := key_list st ++ [_key];
               _prev := _end |}
      end
  end.

(** What a call of [forward] leaves behind and returns: the instance and
    the caller's tensors after the call, and the returned pair or the
    exception raised. *)
Record ForwardOutcome : Type := {
  self_after : Qwen;
  query_after : list (list F);
  key_after : list (list F);
  returned : result (list (list F) * list (list F))
}.

(** [DynamicNTKScalingRotaryEmbeddingQwen.forward] *)
Definition forward (self : Qwen) (positions : list Z)
    (query key : list (list F)) (input_metadata : InputMetadata) : ForwardOutcome :=
  let '(is_continue, seq_lens) := select_seq_lens input_metadata in
  let batch_size := Z.of_nat (length seq_lens) in
  let '(raised, st) :=
    forward_loop positions is_continue batch_size 0 seq_lens
      {| self_ := self; query_buf := query; key_buf := key;
         query_list := []; key_list := []; _prev := 0 |} in
  {| self_after := self_ st;
     query_after := query_buf st;
     key_after := key_buf st;
     returned :=
       match raised with
       | Some e => Raise e
       | None =>
           q <- Torch.cat (map (fun v => Torch.view_rows v (query_buf st)) (query_list st)) ;;
           k <- Torch.cat (map (fun v => Torch.view_rows v (key_buf st)) (key_list st)) ;;
           Ok (q, k)
       end |}.

(** *** The layout the batch descriptor declares

    The rows a sample contributes, and the consecutive row ranges
    [(start, stop)] of the samples over flat buffers of [n] rows: every
    sample but the last spans its declared rows, the last one runs to the
    end of the buffers. *)
Definition sample_width (is_continue : bool) (seq_len : Z) : Z :=
  if is_continue then 1 else seq_len.

Fixpoint declared_ranges (is_continue : bool) (n start : Z) (seq_lens : list Z)
  : list (Z * Z) :=
  match seq_lens with
  | [] => []
  | seq_len :: rest =>
      match rest with
      | [] => [(start, n)]
      | _ :: _ =>
          (start, start + sample_width is_continue seq_len)
            :: declared_ranges is_continue n (start + sample_width is_continue seq_len) rest
      end
  end.

Definition declared_rows (is_continue : bool) (seq_lens : list Z) : Z :=
  fold_right (fun seq_len acc => sample_width is_continue seq_len + acc) 0 seq_lens.

Definition view_of_range (r : Z * Z) : Torch.view :=
  (Z.to_nat (fst r), Z.to_nat (snd r - fst r)).

(** The row the kernel writes for token [t] of the flat buffers under the
    cache of [self]. *)
Definition rotated_row (positions : list Z) (self : Qwen) (t : nat) (row : list F)
  : list F :=
  rotate_row (head_size (config self)) (cos_sin_cache self)
             (is_neox_style (config self)) (nth_error positions t) row.

(** The configurations on which a rebuild is defined: a positive reference
    length, and a rotary dimension the constructor accepts and for which
    the NTK exponent exists. *)
Definition well_configured (self : Qwen) : Prop :=
  1 <= _config_seq_length self /\
  0 <= rotary_dim (config self) /\
  rotary_dim (config self) <> 2.

End Adaptive.

Arguments Qwen F : clear implicits.
Arguments LoopState F : clear implicits.
Arguments ForwardOutcome F : clear implicits.

(** ** A term model of the float interface

    Terms over the float operations, with no equations between them: the
    embedding runs on them, and two results are equal only if they were
    computed in the same way. *)

Module Symbolic.

#[local] Unset Elimination Schemes.
Inductive term : Type :=
| TInt (z : Z)
| TMul (a b : term)
| TDiv (a b : term)
| TSub (a b : term)
| TPow (a b : term)
| TCos (a : term)
| TSin (a : term)
| TCast (a : term)
| TRot (cache_row : option (list term)) (position : option Z) (a : term).
#[local] Set Elimination Schemes.

(** The ceiling of an integer-valued term. *)
Fixpoint term_ceil (t : term) : Z :=
  match t with
  | TInt z => z
  | TMul a b => term_ceil a * term_ceil b
  | TSub a b => term_ceil a - term_ceil b
  | _ => 0
  end.

#[global] Instance term_float : FloatOps term := {|
  of_int := TInt;
  fmul := TMul;
  fdiv := TDiv;
  fsub := TSub;
  fpow := TPow;
  fcos := TCos;
  fsin := TSin;
  to_dtype := TCast;
  arange_len := term_ceil
|}.

(** A kernel that records, in every entry, the cache row it was given for
    the position of the token. *)
#[global] Instance term_kernel : RotaryKernel term := {|
  rotate_row := fun _ cache _ position row =>
    let cache_row :=
      match position with
      | Some p => if p <? 0 then None else nth_error cache (Z.to_nat p)
      | None => None
      end in
    map (TRot cache_row position) row
|}.

(** Qwen-7B: 128-dimensional heads, reference length 8192. *)
Definition qwen_config : Config :=
  {| head_size := 128; rotary_dim := 128; max_position_embeddings := 8192;
     base := 10000; is_neox_style := true |}.

(** A small configuration for running the model by hand. *)
Definition small_config (rd : Z) : Config :=
  {| head_size := 4; rotary_dim := rd; max_position_embeddings := 4;
     base := 10000; is_neox_style := true |}.

Definition small_qwen (rd seq_length cached alpha : Z) : Qwen term :=
  {| config := small_config rd;
     _config_seq_length := seq_length;
     _seq_len_cached := cached;
     _ntk_alpha_cached := alpha;
     cos_sin_cache := [] |}.

(** Three prompts of 4, 7 and 5 tokens in flat buffers of 20 rows: 16
    declared rows and 4 rows of padding. *)
Definition example_positions : list Z :=
  [0; 1; 2; 3;  0; 1; 2; 3; 4; 5; 6;  0; 1; 2; 3; 4;  0; 0; 0; 0].

Definition example_rows (tag : Z) : list (list term) :=
  map (fun t => [TInt (tag + Z.of_nat t)]) (seq 0 20).

Definition example_prefill : InputMetadata :=
  {| prompt_lens := [4; 7; 5]; context_lens := [] |}.

Definition example_decode : InputMetadata :=
  {| prompt_lens := []; context_lens := [10; 200; 9999] |}.

End Symbolic.

(** ** The static variants *)

Section Static.
Context {F : Type} `{FloatOps F} `{RotaryKernel F}.

(** [LinearScalingRotaryEmbedding._compute_cos_sin_cache] *)
Definition linear_compute_cos_sin_cache (scaling_factor : F) (self : Config)
  : result (list (list F)) :=
  inv_freq <- _compute_inv_freq self (of_int (base self)) ;;
  let max_len := fmul (of_int (max_position_embeddings self)) scaling_factor in
  t <- Torch.arange 0 (arange_len max_len) 1 ;;
  let t := map (fun ti => fdiv (of_int ti) scaling_factor) t in
  Ok (cos_sin_table t inv_freq).

(** [LinearScalingRotaryEmbedding.__init__] *)
Definition LinearScalingRotaryEmbedding_init
    (self : Config) (scaling_factor : F) : result (list (list F)) :=
  RotaryEmbedding_init (linear_compute_cos_sin_cache scaling_factor) self.

(** [RotaryEmbedding.forward], inherited by the linear and the fixed
    dynamic-NTK variants: one kernel call on the whole tensors, which are
    returned after the in-place update.  The kernel call is the one of
    [rotary_embedding], on the views that are the whole tensors. *)
Definition RotaryEmbedding_forward (self : Config) (cos_sin_cache : list (list F))
    (positions : list Z) (query key : list (list F))
  : list (list F) * list (list F) :=
  let rot := fun (j : nat) (row : list F) =>
    rotate_row (head_size self) cos_sin_cache (is_neox_style self)
               (nth_error positions j) row in
  (Torch.rewrite_rows rot (0%nat, length query) query,
   Torch.rewrite_rows rot (0%nat, Nat.min (length key) (length query)) key).

(** Closed forms used in statements: the effective base of the adaptive
    variant for an alpha, and the one of the fixed dynamic-NTK variant for
    a scaling factor. *)
Definition effective_base (cfg : Config) (alpha : Z) : F :=
  fmul (of_int (base cfg))
       (fpow (of_int alpha)
             (fdiv (of_int (rotary_dim cfg)) (of_int (rotary_dim cfg - 2)))).

Definition ntk_effective_base (cfg : Config) (scaling_factor : F) : F :=
  let max_len := fmul (of_int (max_position_embeddings cfg)) scaling_factor in
  fmul (of_int (base cfg))
       (fpow (fsub (fdiv (fmul scaling_factor max_len)
                         (of_int (max_position_embeddings cfg)))
                   (fsub scaling_factor (of_int 1)))
             (fdiv (of_int (rotary_dim cfg)) (of_int (rotary_dim cfg - 2)))).

(** The cache metadata describes the table: every row below
    [_seq_len_cached] is the row of its index for the effective base of
    [_ntk_alpha_cached]. *)
Definition cache_describes (self : Qwen F) : Prop :=
  forall p, 0 <= p < _seq_len_cached self ->
    nth_error (cos_sin_cache self) (Z.to_nat p)
    = Some (map to_dtype
              (table_row
                 (inv_freq_of (rotary_dim (config self))
                    (effective_base (config self) (_ntk_alpha_cached self)))
                 (of_int p))).

(** The samples the loop of [forward] reaches when every recompute call
    before a length below 1 returns: the lengths up to the first one that
    is 0 or negative. *)
Fixpoint positive_prefix (seq_lens : list Z) : list Z :=
  match seq_lens with
  | [] => []
  | seq_len :: rest =>
      if 1 <=? seq_len then seq_len :: positive_prefix rest else []
  end.

(** A sequence of calls of [_update_cos_sin_cache] that stops at the
    first exception, as when the calls are made one after the other by one
    caller. *)
Fixpoint update_all (self : Qwen F) (lens : list Z) : result (Qwen F) :=
  match lens with
  | [] => Ok self
  | max_seq_len :: rest =>
      self' <- _update_cos_sin_cache self max_seq_len ;;
      update_all self' rest
  end.

End Static.

(** ** Exact real arithmetic

    The float interface read over the reals, the cast being the identity:
    an instance on which the laws of float arithmetic that some statements
    assume hold together.  [Rpower] is the real power for a positive
    base. *)

Module ExactReal.

Definition real_arange_len (x : R) : Z :=
  if Rlt_dec x 0 then -1 else Alpha.Rceil x.

#[global] Instance real_float : FloatOps R := {|
  of_int := IZR;
  fmul := Rmult;
  fdiv := Rdiv;
  fsub := Rminus;
  fpow := Rpower;
  fcos := cos;
  fsin := sin;
  to_dtype := fun x => x;
  arange_len := real_arange_len
|}.

End ExactReal.

(* ================================================================== *)
(** * Properties *)
(* ================================================================== *)

(** ** The alpha function: integer side *)

Section AlphaInteger.
Import Alpha.

Lemma ceil_log2_ratio_below (t r : Z) :
  0 < t -> t <= r ->
  let m := Z.log2 (r / t) in
  0 <= m /\ t * 2 ^ m <= r /\ r < t * 2 ^ (m + 1).
Proof.
  intros Ht Htr m.
  assert (Hq : 1 <= r / t) by (apply Z.div_le_lower_bound; lia).
  destruct (Z.log2_spec (r / t)) as [Hlo Hhi]; [lia|].
  fold m in Hlo, Hhi.
  assert (Hm : 0 <= m) by apply Z.log2_nonneg.
  replace (Z.succ m) with (m + 1) in Hhi by lia.
  pose proof (Z.mul_div_le r t Ht) as Hfl.
  pose proof (Z.mul_succ_div_gt r t Ht) as Hce.
  repeat split; [exact Hm| nia | nia].
Qed.

Lemma ceil_log2_ratio_above (t r : Z) :
  0 < r -> r < t ->
  let k := Z.log2_up ((t + r - 1) / r) in
  1 <= k /\ r * 2 ^ (k - 1) < t /\ t <= r * 2 ^ k.
Proof.
  intros Hr Hrt k.
  set (a := (t + r - 1) / r) in *.
  assert (Ha : 2 <= a) by (apply Z.div_le_lower_bound; lia).
  destruct (Z.log2_up_spec a) as [Hlo Hhi]; [lia|].
  fold k in Hlo, Hhi.
  replace (Z.pred k) with (k - 1) in Hlo by lia.
  assert (Hk : 1 <= k).
  { destruct (Z.le_gt_cases 1 k) as [|Hk0]; [assumption|].
    assert (Hk' : 0 < k) by (apply Z.log2_up_pos; lia). lia. }
  pose proof (Z.mul_div_le (t + r - 1) r Hr) as Hfl.
  pose proof (Z.mul_succ_div_gt (t + r - 1) r Hr) as Hce.
  fold a in Hfl, Hce.
  assert (Hp : 0 < 2 ^ (k - 1)) by (apply Z.pow_pos_nonneg; lia).
  repeat split; [exact Hk| nia | nia].
Qed.

Lemma ceil_log2_ratio_nonpos (t r : Z) :
  0 < t -> t <= r -> ceil_log2_ratio t r <= 0.
Proof.
  intros Ht Htr. unfold ceil_log2_ratio.
  destruct (Z.leb_spec t r); [|lia].
  pose proof (Z.log2_nonneg (r / t)). lia.
Qed.




Lemma pow2_minus_1_max1_small (c : Z) : c <= 1 -> pow2_minus_1_max1 c = 1.
Proof.
  intros Hc. unfold pow2_minus_1_max1.
  destruct (Z.ltb_spec c 0); [reflexivity|].
  assert (Hc' : c = 0 \/ c = 1) by lia.
  destruct Hc' as [->| ->]; reflexivity.
Qed.

Lemma pow2_minus_1_max1_ge1 (c : Z) : 1 <= pow2_minus_1_max1 c.
Proof.
  unfold pow2_minus_1_max1. destruct (Z.ltb_spec c 0); lia.
Qed.

Lemma get_ntk_alpha_pos (r t : Z) :
  0 < r -> 0 < t ->
  get_ntk_alpha r t = Ok (pow2_minus_1_max1 (ceil_log2_ratio t r + 1)).
Proof.
  intros Hr Ht. unfold get_ntk_alpha.
  destruct (Z.eqb_spec r 0); [lia|].
  destruct (Z.leb_spec (t * r) 0); [nia|].
  rewrite !Z.abs_eq by lia. reflexivity.
Qed.

End AlphaInteger.

(** ** The alpha function: agreement with the real-number formula *)

Section AlphaReal.
Import Alpha.
Local Open Scope R_scope.

Lemma Rceil_unique (x : R) (z : Z) :
  IZR z - 1 < x <= IZR z -> Rceil x = z.
Proof.
  intros [Hlo Hhi]. unfold Rceil.
  assert (E : (- z)%Z = Int_part (- x)).
  { apply Int_part_spec. rewrite opp_IZR. split; lra. }
  rewrite <- E. lia.
Qed.

Lemma ln_2_pos : 0 < ln 2.
Proof. rewrite <- ln_1. apply ln_increasing; lra. Qed.

Lemma ln_powerRZ_2 (k : Z) : ln (powerRZ 2 k) = IZR k * ln 2.
Proof.
  rewrite powerRZ_Rpower by lra. apply ln_Rpower.
Qed.

Lemma Rceil_log2_bracket (x : R) (k : Z) :
  0 < x -> powerRZ 2 (k - 1) < x <= powerRZ 2 k ->
  Rceil (ln x / ln 2 + 1) = (k + 1)%Z.
Proof.
  intros Hx [Hlo Hhi].
  pose proof ln_2_pos as H2.
  assert (Hp : 0 < powerRZ 2 (k - 1)) by (apply powerRZ_lt; lra).
  assert (L1 : IZR (k - 1) * ln 2 < ln x).
  { rewrite <- ln_powerRZ_2. apply ln_increasing; assumption. }
  assert (L2 : ln x <= IZR k * ln 2).
  { rewrite <- ln_powerRZ_2. destruct Hhi as [Hhi| ->]; [|lra].
    left. apply ln_increasing; assumption. }
  rewrite minus_IZR in L1.
  apply Rceil_unique. rewrite plus_IZR. split.
  - assert (IZR k - 1 < ln x / ln 2); [|lra].
    apply (Rmult_lt_reg_r (ln 2)); [exact H2|].
    unfold Rdiv. rewrite Rmult_assoc, Rinv_l by lra. lra.
  - assert (ln x / ln 2 <= IZR k); [|lra].
    apply (Rmult_le_reg_r (ln 2)); [exact H2|].
    unfold Rdiv. rewrite Rmult_assoc, Rinv_l by lra. lra.
Qed.

Lemma powerRZ_2_nonneg (k : Z) : (0 <= k)%Z -> powerRZ 2 k = IZR (2 ^ k).
Proof.
  intros Hk. rewrite <- (Z2Nat.id k Hk) at 1.
  rewrite <- pow_powerRZ. rewrite pow_IZR. rewrite Z2Nat.id by exact Hk.
  reflexivity.
Qed.

Lemma powerRZ_2_neg (m : Z) : (0 <= m)%Z -> powerRZ 2 (- m) = / IZR (2 ^ m).
Proof.
  intros Hm. rewrite powerRZ_neg'. rewrite powerRZ_2_nonneg by exact Hm.
  reflexivity.
Qed.

Lemma ceil_log2_ratio_bracket (t r : Z) :
  (0 < t)%Z -> (0 < r)%Z ->
  powerRZ 2 (ceil_log2_ratio t r - 1) < IZR t / IZR r
    <= powerRZ 2 (ceil_log2_ratio t r).
Proof.
  intros Ht Hr.
  assert (HtR : 0 < IZR t) by (apply IZR_lt; exact Ht).
  assert (HrR : 0 < IZR r) by (apply IZR_lt; exact Hr).
  unfold ceil_log2_ratio. destruct (Z.leb_spec t r) as [Hle|Hgt].
  - destruct (ceil_log2_ratio_below t r Ht Hle) as (Hm & Hlo & Hhi).
    set (m := Z.log2 (r / t)) in *.
    assert (Hp1 : 0 < IZR (2 ^ m)) by (apply IZR_lt; apply Z.pow_pos_nonneg; lia).
    assert (Hp2 : 0 < IZR (2 ^ (m + 1))) by (apply IZR_lt; apply Z.pow_pos_nonneg; lia).
    apply IZR_le in Hlo. apply IZR_lt in Hhi. rewrite mult_IZR in Hlo, Hhi.
    replace (- m - 1)%Z with (- (m + 1))%Z by lia.
    rewrite !powerRZ_2_neg by lia. split.
    + apply (Rmult_lt_reg_r (IZR r * IZR (2 ^ (m + 1)))); [apply Rmult_lt_0_compat; lra|].
      field_simplify; lra.
    + apply (Rmult_le_reg_r (IZR r * IZR (2 ^ m))); [apply Rmult_lt_0_compat; lra|].
      field_simplify; lra.
  - destruct (ceil_log2_ratio_above t r Hr Hgt) as (Hk & Hlo & Hhi).
    set (k := Z.log2_up ((t + r - 1) / r)) in *.
    apply IZR_lt in Hlo. apply IZR_le in Hhi. rewrite mult_IZR in Hlo, Hhi.
    rewrite !powerRZ_2_nonneg by lia. split.
    + apply (Rmult_lt_reg_r (IZR r)); [exact HrR|].
      unfold Rdiv. rewrite Rmult_assoc, Rinv_l by lra. lra.
    + apply (Rmult_le_reg_r (IZR r)); [exact HrR|].
      unfold Rdiv. rewrite Rmult_assoc, Rinv_l by lra. lra.
Qed.



End AlphaReal.

(** ** Tensor operations *)

Section TorchFacts.
Import Torch.

Lemma arange_unit (n : Z) :
  0 <= n -> arange 0 n 1 = Ok (map Z.of_nat (seq 0 (Z.to_nat n))).
Proof.
  intros Hn. unfold arange. destruct (Z.ltb_spec n 0); [lia|].
  replace ((n - 0 + 1 - 1) / 1) with n by (rewrite Z.div_1_r; lia).
  f_equal. apply map_ext. intros a. lia.
Qed.

Lemma arange_step2 (n : Z) :
  0 <= n ->
  arange 0 n 2 = Ok (map (fun j => 2 * Z.of_nat j) (seq 0 (Z.to_nat ((n + 1) / 2)))).
Proof.
  intros Hn. unfold arange. destruct (Z.ltb_spec n 0); [lia|].
  replace (n - 0 + 2 - 1) with (n + 1) by lia.
  f_equal.
Qed.

Lemma arange_negative (n step : Z) : n < 0 -> arange 0 n step = Raise RuntimeError.
Proof.
  intros Hn. unfold arange. destruct (Z.ltb_spec n 0); [reflexivity|lia].
Qed.

End TorchFacts.

(** ** Cache builders *)

Section BuilderFacts.
Context {F : Type} `{FloatOps F}.

Lemma cos_sin_table_rows (t inv_freq : list F) :
  cos_sin_table t inv_freq = map (table_row inv_freq) t.
Proof.
  unfold cos_sin_table, Torch.cat_last, Torch.einsum_outer, table_row.
  induction t as [|p t IH]; simpl; [reflexivity|].
  rewrite IH. rewrite !map_map. reflexivity.
Qed.

Lemma compute_inv_freq_ok (cfg : Config) (b : F) :
  0 <= rotary_dim cfg ->
  _compute_inv_freq cfg b = Ok (inv_freq_of (rotary_dim cfg) b).
Proof.
  intros Hrd. unfold _compute_inv_freq, inv_freq_of.
  rewrite arange_step2 by exact Hrd. simpl. rewrite map_map. reflexivity.
Qed.

Lemma compute_inv_freq_negative (cfg : Config) (b : F) :
  rotary_dim cfg < 0 -> _compute_inv_freq cfg b = Raise RuntimeError.
Proof.
  intros Hrd. unfold _compute_inv_freq.
  rewrite arange_negative by exact Hrd. reflexivity.
Qed.

Lemma true_div_ok (a b : Z) :
  b <> 0 -> true_div a b = Ok (fdiv (of_int a) (of_int b)).
Proof.
  intros Hb. unfold true_div. destruct (Z.eqb_spec b 0); [contradiction|reflexivity].
Qed.

(** The table built over [n] positions: row [p] is [table_row] at the
    unscaled index [p]. *)
Lemma table_nth (inv_freq : list F) (n p : Z) :
  0 <= p < n ->
  nth_error (map (map to_dtype)
               (cos_sin_table (map of_int (map Z.of_nat (seq 0 (Z.to_nat n)))) inv_freq))
            (Z.to_nat p)
  = Some (map to_dtype (table_row inv_freq (of_int p))).
Proof.
  intros Hp. rewrite cos_sin_table_rows, !map_map.
  rewrite nth_error_map.
  rewrite nth_error_seq.
  destruct (Nat.ltb_spec (Z.to_nat p) (Z.to_nat n)) as [_|Hge]; [|lia].
  simpl. rewrite Z2Nat.id by lia. reflexivity.
Qed.

Lemma table_length (inv_freq : list F) (n : Z) :
  0 <= n ->
  Z.of_nat (length (map (map to_dtype)
     (cos_sin_table (map of_int (map Z.of_nat (seq 0 (Z.to_nat n)))) inv_freq))) = n.
Proof.
  intros Hn. rewrite cos_sin_table_rows, !length_map, length_seq. lia.
Qed.

End BuilderFacts.

(** ** The recompute policy *)

Section PolicyFacts.
Context {F : Type} `{FloatOps F} `{RotaryKernel F}.
Implicit Types self : Qwen F.

Lemma needs_rebuild_iff self t a :
  needs_rebuild self t a = true <-> _seq_len_cached self < t \/ a <> _ntk_alpha_cached self.
Proof.
  unfold needs_rebuild. rewrite orb_true_iff, negb_true_iff.
  rewrite Z.ltb_lt, Z.eqb_neq. reflexivity.
Qed.

Lemma needs_rebuild_false_iff self t a :
  needs_rebuild self t a = false <-> t <= _seq_len_cached self /\ a = _ntk_alpha_cached self.
Proof.
  unfold needs_rebuild. rewrite orb_false_iff, negb_false_iff.
  rewrite Z.ltb_ge, Z.eqb_eq. reflexivity.
Qed.

Lemma update_reuse self t a :
  Alpha.get_ntk_alpha (_config_seq_length self) t = Ok a ->
  needs_rebuild self t a = false ->
  _update_cos_sin_cache self t = Ok self.
Proof.
  intros Ha Hn. unfold _update_cos_sin_cache. rewrite Ha. simpl.
  rewrite Hn. reflexivity.
Qed.

Lemma update_rebuild self t a :
  Alpha.get_ntk_alpha (_config_seq_length self) t = Ok a ->
  needs_rebuild self t a = true ->
  0 <= rotary_dim (config self) -> rotary_dim (config self) <> 2 ->
  _update_cos_sin_cache self t =
    Ok {| config := config self;
          _config_seq_length := _config_seq_length self;
          _seq_len_cached := Z.max (2 * t) 16;
          _ntk_alpha_cached := a;
          cos_sin_cache :=
            map (map to_dtype)
              (cos_sin_table
                 (map of_int (map Z.of_nat (seq 0 (Z.to_nat (Z.max (2 * t) 16)))))
                 (inv_freq_of (rotary_dim (config self))
                    (fmul (of_int (base (config self)))
                       (fpow (of_int a)
                          (fdiv (of_int (rotary_dim (config self)))
                                (of_int (rotary_dim (config self) - 2))))))) |}.
Proof.
  intros Ha Hn Hrd Hrd2. unfold _update_cos_sin_cache. rewrite Ha. simpl.
  rewrite Hn. rewrite true_div_ok by lia. simpl.
  rewrite compute_inv_freq_ok by exact Hrd. simpl.
  rewrite arange_unit by lia. reflexivity.
Qed.

Lemma update_rotary_dim_2 self t a :
  Alpha.get_ntk_alpha (_config_seq_length self) t = Ok a ->
  needs_rebuild self t a = true ->
  rotary_dim (config self) = 2 ->
  _update_cos_sin_cache self t = Raise ZeroDivisionError.
Proof.
  intros Ha Hn Hrd. unfold _update_cos_sin_cache. rewrite Ha. simpl.
  rewrite Hn. rewrite Hrd. reflexivity.
Qed.

(** A call that returns leaves the configuration and the reference length
    alone, and afterwards the cache covers the requested length under the
    alpha of that length. *)
Lemma update_post self t self' :
  _update_cos_sin_cache self t = Ok self' ->
  exists a,
    Alpha.get_ntk_alpha (_config_seq_length self) t = Ok a /\
    config self' = config self /\
    _config_seq_length self' = _config_seq_length self /\
    needs_rebuild self' t a = false /\
    (needs_rebuild self t a = false -> self' = self) /\
    (needs_rebuild self t a = true -> _seq_len_cached self' = Z.max (2 * t) 16).
Proof.
  unfold _update_cos_sin_cache. intros Hu.
  destruct (Alpha.get_ntk_alpha (_config_seq_length self) t) as [a|e] eqn:Ha;
    cbn [bind] in Hu; [|discriminate].
  exists a. split; [reflexivity|].
  destruct (needs_rebuild self t a) eqn:Hn.
  - destruct (true_div _ _) as [e|?]; cbn [bind] in Hu; [|discriminate].
    destruct (_compute_inv_freq _ _) as [fr|?]; cbn [bind] in Hu; [|discriminate].
    destruct (Torch.arange _ _ _) as [ts|?]; cbn [bind] in Hu; [|discriminate].
    injection Hu as <-. cbn [config _config_seq_length _seq_len_cached].
    repeat split; try discriminate.
    apply needs_rebuild_false_iff.
    cbn [_seq_len_cached _ntk_alpha_cached]. split; [destruct t; lia|reflexivity].
  - injection Hu as <-. repeat split; try assumption; try discriminate.
Qed.

End PolicyFacts.

(** ** Construction and sequences of calls *)

Section CallFacts.
Context {F : Type} `{FloatOps F}.
Implicit Types self : Qwen F.

Lemma baseline_cache_ok (cfg : Config) :
  0 <= rotary_dim cfg -> 0 <= max_position_embeddings cfg ->
  RotaryEmbedding_init _compute_cos_sin_cache cfg =
    Ok (map (map to_dtype)
          (cos_sin_table
             (map of_int (map Z.of_nat (seq 0 (Z.to_nat (max_position_embeddings cfg)))))
             (inv_freq_of (rotary_dim cfg) (of_int (base cfg))))).
Proof.
  intros Hrd Hmpe. unfold RotaryEmbedding_init, _compute_cos_sin_cache.
  rewrite compute_inv_freq_ok by exact Hrd. cbn [bind].
  rewrite arange_unit by exact Hmpe. reflexivity.
Qed.

Lemma Qwen_init_ok (cfg : Config) (seq_length : Z) :
  0 <= rotary_dim cfg -> 0 <= max_position_embeddings cfg ->
  exists self0 : Qwen F,
    Qwen_init cfg seq_length = Ok self0 /\
    config self0 = cfg /\
    _config_seq_length self0 = seq_length /\
    _seq_len_cached self0 = 0 /\
    _ntk_alpha_cached self0 = 1 /\
    cos_sin_cache self0 =
      map (map to_dtype)
        (cos_sin_table
           (map of_int (map Z.of_nat (seq 0 (Z.to_nat (max_position_embeddings cfg)))))
           (inv_freq_of (rotary_dim cfg) (of_int (base cfg)))).
Proof.
  intros Hrd Hmpe. unfold Qwen_init.
  rewrite baseline_cache_ok by assumption. cbn [bind].
  eexists. split; [reflexivity|]. repeat split.
Qed.

Lemma update_total self t :
  1 <= _config_seq_length self -> 1 <= t ->
  0 <= rotary_dim (config self) -> rotary_dim (config self) <> 2 ->
  exists self', _update_cos_sin_cache self t = Ok self'.
Proof.
  intros Hr Ht Hrd Hrd2.
  pose proof (get_ntk_alpha_pos (_config_seq_length self) t ltac:(lia) ltac:(lia)) as Ha.
  destruct (needs_rebuild self t (Alpha.pow2_minus_1_max1
              (Alpha.ceil_log2_ratio t (_config_seq_length self) + 1))) eqn:Hn.
  - eexists. apply (update_rebuild _ _ _ Ha Hn Hrd Hrd2).
  - eexists. apply (update_reuse _ _ _ Ha Hn).
Qed.

(** The cached length after each call, in order. *)
Lemma update_calls_sorted (lens : list Z) : forall self,
  Sorted Z.le lens ->
  (forall t, hd_error lens = Some t -> _seq_len_cached self <= Z.max (2 * t) 16) ->
  Sorted Z.le
    (_seq_len_cached self
       :: map (fun c => _seq_len_cached (snd c)) (update_calls self lens)).
Proof.
  induction lens as [|t rest IH]; intros self Hs Hb; cbn [update_calls map].
  - constructor; constructor.
  - apply Sorted_inv in Hs. destruct Hs as [Hs Hhd].
    assert (Hnext : forall self1, _seq_len_cached self1 <= Z.max (2 * t) 16 ->
              forall t2, hd_error rest = Some t2 ->
              _seq_len_cached self1 <= Z.max (2 * t2) 16).
    { intros self1 Hc t2 Ht2. destruct rest as [|t2' rest']; [discriminate|].
      injection Ht2 as ->. apply HdRel_inv in Hhd. lia. }
    specialize (Hb t eq_refl).
    destruct (_update_cos_sin_cache self t) as [self'|e] eqn:Hu; cbn [map snd].
    + destruct (update_post _ _ _ Hu) as (a & _ & _ & _ & _ & Hsame & Hnew).
      destruct (needs_rebuild self t a) eqn:Hn.
      * specialize (Hnew eq_refl).
        constructor; [apply IH; [exact Hs|apply Hnext; lia]|].
        constructor. lia.
      * rewrite (Hsame eq_refl).
        constructor; [apply IH; [exact Hs|apply Hnext; exact Hb]|].
        constructor. lia.
    + constructor; [apply IH; [exact Hs|apply Hnext; exact Hb]|].
      constructor. lia.
Qed.

Lemma update_calls_no_exception (lens : list Z) : forall self,
  1 <= _config_seq_length self ->
  0 <= rotary_dim (config self) -> rotary_dim (config self) <> 2 ->
  Forall (fun t => 1 <= t) lens ->
  Forall (fun c => fst c = None) (update_calls self lens).
Proof.
  induction lens as [|t rest IH]; intros self Hr Hrd Hrd2 Hl; cbn [update_calls].
  - constructor.
  - inversion Hl as [|? ? Ht Hrest]; subst.
    destruct (update_total self t Hr Ht Hrd Hrd2) as [self' Hu]. rewrite Hu.
    destruct (update_post _ _ _ Hu) as (a & _ & Hc & Hl' & _).
    constructor; [reflexivity|].
    apply IH; [rewrite Hl'|rewrite Hc|rewrite Hc|]; assumption.
Qed.

End CallFacts.

(** ** Views and in-place updates *)

Section ViewFacts.
Import Torch.
Context {A : Type}.

Lemma imap_from_length {B} (f : nat -> A -> B) (l : list A) : forall k,
  length (imap_from f k l) = length l.
Proof.
  induction l as [|x l IH]; intros k; simpl; [reflexivity|].
  rewrite IH. reflexivity.
Qed.

Lemma imap_from_nth {B} (f : nat -> A -> B) (l : list A) : forall k j,
  nth_error (imap_from f k l) j = option_map (f (k + j)%nat) (nth_error l j).
Proof.
  induction l as [|x l IH]; intros k j; simpl.
  - destruct j; reflexivity.
  - destruct j as [|j]; simpl.
    + rewrite Nat.add_0_r. reflexivity.
    + rewrite IH. replace (S k + j)%nat with (k + S j)%nat by lia. reflexivity.
Qed.

Lemma view_rows_length (lo len : nat) (buf : list A) :
  (lo + len <= length buf)%nat -> length (view_rows (lo, len) buf) = len.
Proof.
  intros Hb. unfold view_rows. simpl.
  rewrite length_firstn, length_skipn. lia.
Qed.

Lemma view_rows_nth (lo len j : nat) (buf : list A) :
  (j < len)%nat -> nth_error (view_rows (lo, len) buf) j = nth_error buf (lo + j).
Proof.
  intros Hj. unfold view_rows. simpl.
  rewrite nth_error_firstn.
  destruct (Nat.ltb_spec j len); [|lia].
  apply nth_error_skipn.
Qed.

Lemma rewrite_rows_length (f : nat -> A -> A) (lo len : nat) (buf : list A) :
  (lo + len <= length buf)%nat ->
  length (rewrite_rows f (lo, len) buf) = length buf.
Proof.
  intros Hb. unfold rewrite_rows. cbn [fst snd].
  rewrite !length_app, imap_from_length, view_rows_length by exact Hb.
  rewrite length_firstn, length_skipn. lia.
Qed.

Lemma rewrite_rows_before (f : nat -> A -> A) (lo len t : nat) (buf : list A) :
  (lo + len <= length buf)%nat -> (t < lo)%nat ->
  nth_error (rewrite_rows f (lo, len) buf) t = nth_error buf t.
Proof.
  intros Hb Ht. unfold rewrite_rows. cbn [fst snd].
  rewrite nth_error_app1 by (rewrite length_firstn; lia).
  rewrite nth_error_firstn. destruct (Nat.ltb_spec t lo); [reflexivity|lia].
Qed.

Lemma rewrite_rows_inside (f : nat -> A -> A) (lo len t : nat) (buf : list A) :
  (lo + len <= length buf)%nat -> (lo <= t < lo + len)%nat ->
  nth_error (rewrite_rows f (lo, len) buf) t
  = option_map (f (t - lo)%nat) (nth_error buf t).
Proof.
  intros Hb Ht. unfold rewrite_rows. cbn [fst snd].
  rewrite nth_error_app2 by (rewrite length_firstn; lia).
  rewrite length_firstn, Nat.min_l by lia.
  rewrite nth_error_app1
    by (rewrite imap_from_length, view_rows_length by exact Hb; lia).
  rewrite imap_from_nth, view_rows_nth by lia.
  replace (lo + (t - lo))%nat with t by lia. reflexivity.
Qed.

Lemma rewrite_rows_after (f : nat -> A -> A) (lo len t : nat) (buf : list A) :
  (lo + len <= length buf)%nat -> (lo + len <= t)%nat ->
  nth_error (rewrite_rows f (lo, len) buf) t = nth_error buf t.
Proof.
  intros Hb Ht. unfold rewrite_rows. cbn [fst snd].
  rewrite nth_error_app2 by (rewrite length_firstn; lia).
  rewrite length_firstn, Nat.min_l by lia.
  rewrite nth_error_app2
    by (rewrite imap_from_length, view_rows_length by exact Hb; lia).
  rewrite imap_from_length, view_rows_length by exact Hb.
  rewrite nth_error_skipn. f_equal. lia.
Qed.

(** Python's slice on in-range bounds. *)
Lemma adjust_index_in_range (n i : Z) : 0 <= i <= n -> adjust_index n i = i.
Proof.
  intros Hi. unfold adjust_index.
  destruct (Z.ltb_spec i 0) as [|_]; [lia|].
  destruct (Z.ltb_spec i 0) as [|_]; [lia|].
  destruct (Z.ltb_spec n i); [lia|reflexivity].
Qed.

Lemma slice_in_range (n : nat) (lo hi : Z) :
  0 <= lo <= hi -> hi <= Z.of_nat n ->
  slice n lo (Some hi) = (Z.to_nat lo, Z.to_nat (hi - lo)).
Proof.
  intros Hlo Hhi. unfold slice.
  rewrite !adjust_index_in_range by lia. reflexivity.
Qed.

Lemma slice_to_end (n : nat) (lo : Z) :
  0 <= lo <= Z.of_nat n ->
  slice n lo None = (Z.to_nat lo, Z.to_nat (Z.of_nat n - lo)).
Proof.
  intros Hlo. unfold slice.
  rewrite adjust_index_in_range by lia. reflexivity.
Qed.

End ViewFacts.

(** ** The forward loop *)

Section ForwardFacts.
Context {F : Type} `{FloatOps F} `{RotaryKernel F}.
Implicit Types self : Qwen F.
Implicit Types st : LoopState F.

Lemma option_map_ext {A B} (f g : A -> B) (o : option A) :
  (forall a, f a = g a) -> option_map f o = option_map g o.
Proof. intros E. destruct o; simpl; [rewrite E|]; reflexivity. Qed.

(** One kernel call on the rows [lo, lo + len) of buffers of equal
    length. *)
Lemma rotary_embedding_rows (positions : list Z) self (q k : list (list F))
    (lo len : nat) :
  (lo + len <= length positions)%nat ->
  (lo + len <= length q)%nat -> (lo + len <= length k)%nat ->
  let qk := rotary_embedding (Torch.view_rows (lo, len) positions)
              (lo, len) (lo, len) self q k in
  length (fst qk) = length q /\ length (snd qk) = length k /\
  (forall t, (t < lo \/ lo + len <= t)%nat ->
     nth_error (fst qk) t = nth_error q t /\ nth_error (snd qk) t = nth_error k t) /\
  (forall t, (lo <= t < lo + len)%nat ->
     nth_error (fst qk) t = option_map (rotated_row positions self t) (nth_error q t) /\
     nth_error (snd qk) t = option_map (rotated_row positions self t) (nth_error k t)).
Proof.
  intros Hp Hq Hk. unfold rotary_embedding. cbn [fst snd].
  rewrite Nat.min_id.
  split; [apply rewrite_rows_length; exact Hq|].
  split; [apply rewrite_rows_length; exact Hk|].
  split.
  - intros t [Hb|Ha]; split;
      solve [apply rewrite_rows_before; assumption
            |apply rewrite_rows_after; assumption].
  - intros t Ht. rewrite !rewrite_rows_inside by assumption.
    unfold rotated_row. rewrite view_rows_nth by lia.
    replace (lo + (t - lo))%nat with t by lia. split; reflexivity.
Qed.

Lemma sample_width_pos (is_continue : bool) (seq_len : Z) :
  1 <= seq_len -> 1 <= sample_width is_continue seq_len.
Proof. unfold sample_width. destruct is_continue; lia. Qed.

Lemma declared_rows_nonneg (is_continue : bool) (seq_lens : list Z) :
  Forall (fun t => 1 <= t) seq_lens -> 0 <= declared_rows is_continue seq_lens.
Proof.
  induction 1 as [|t rest Ht _ IH]; cbn [declared_rows fold_right]; [lia|].
  pose proof (sample_width_pos is_continue t Ht). unfold declared_rows in IH. lia.
Qed.

Lemma well_configured_update self t self' :
  well_configured self -> _update_cos_sin_cache self t = Ok self' ->
  well_configured self'.
Proof.
  intros (Hr & Hrd & Hrd2) Hu.
  destruct (update_post _ _ _ Hu) as (a & _ & Hc & Hl & _).
  unfold well_configured. rewrite Hc, Hl. auto.
Qed.

(** The loop on a well-formed batch, from any iteration on: no exception,
    the views are the declared ranges, rows before [_prev] are not
    touched, and every row of a range is rotated once, under the cache of
    the sample of that range. *)
Lemma forward_loop_rows (positions : list Z) (is_continue : bool)
    (batch_size : Z) (N : nat) :
  length positions = N ->
  forall seq_lens i st,
    seq_lens <> [] -> Forall (fun t => 1 <= t) seq_lens ->
    i + Z.of_nat (length seq_lens) = batch_size ->
    length (query_buf st) = N -> length (key_buf st) = N ->
    0 <= _prev st ->
    _prev st + declared_rows is_continue seq_lens <= Z.of_nat N ->
    well_configured (self_ st) ->
    exists st',
      forward_loop positions is_continue batch_size i seq_lens st = (None, st') /\
      query_list st' = query_list st ++
        map view_of_range (declared_ranges is_continue (Z.of_nat N) (_prev st) seq_lens) /\
      key_list st' = key_list st ++
        map view_of_range (declared_ranges is_continue (Z.of_nat N) (_prev st) seq_lens) /\
      length (query_buf st') = N /\ length (key_buf st') = N /\
      (forall t, Z.of_nat t < _prev st ->
         nth_error (query_buf st') t = nth_error (query_buf st) t /\
         nth_error (key_buf st') t = nth_error (key_buf st) t) /\
      (forall j lo hi c,
         nth_error (declared_ranges is_continue (Z.of_nat N) (_prev st) seq_lens) j
           = Some (lo, hi) ->
         nth_error (update_calls (self_ st) seq_lens) j = Some c ->
         _prev st <= lo /\ lo < hi /\ hi <= Z.of_nat N /\
         forall t, lo <= Z.of_nat t < hi ->
           nth_error (query_buf st') t
             = option_map (rotated_row positions (snd c) t) (nth_error (query_buf st) t) /\
           nth_error (key_buf st') t
             = option_map (rotated_row positions (snd c) t) (nth_error (key_buf st) t)).
Proof.
  intros Hpos seq_lens.
  induction seq_lens as [|seq_len rest IH];
    intros i st Hne Hall Hi Hq Hk Hprev Hrows Hwf; [contradiction|].
  apply Forall_cons_iff in Hall. destruct Hall as [Hlen Hrest].
  pose proof (sample_width_pos is_continue seq_len Hlen) as Hw.
  pose proof (declared_rows_nonneg is_continue rest Hrest) as Hrest0.
  assert (Hrows' : _prev st + sample_width is_continue seq_len
                     + declared_rows is_continue rest <= Z.of_nat N).
  { cbn [declared_rows fold_right] in Hrows. unfold declared_rows. lia. }
  destruct Hwf as (Hr & Hrd & Hrd2).
  destruct (update_total (self_ st) seq_len Hr Hlen Hrd Hrd2) as [self1 Hu].
  assert (Hwf1 : well_configured self1)
    by (apply (well_configured_update (self_ st) seq_len); [repeat split|]; assumption).
  assert (Hend : (if is_continue then _prev st + 1 else _prev st + seq_len)
                 = _prev st + sample_width is_continue seq_len)
    by (unfold sample_width; destruct is_continue; reflexivity).
  cbn [forward_loop update_calls]. rewrite Hu, Hend, Hq, Hk, Hpos.
  set (P := _prev st) in *. set (w := sample_width is_continue seq_len) in *.
  destruct rest as [|seq_len2 rest'].
  - (* the last sample: the slice runs to the end of the buffers *)
    cbn [length] in Hi.
    destruct (Z.eqb_spec i (batch_size - 1)) as [_|Hn]; [|lia]. cbn [negb].
    rewrite slice_to_end by lia.
    set (lo := Z.to_nat P). set (len := Z.to_nat (Z.of_nat N - P)).
    destruct (rotary_embedding_rows positions self1 (query_buf st) (key_buf st) lo len)
      as (Lq & Lk & Hout & Hin); try lia.
    cbn [forward_loop]. eexists. split; [reflexivity|].
    cbn [query_list key_list query_buf key_buf declared_ranges map].
    unfold view_of_range; cbn [fst snd]. fold lo len.
    split; [reflexivity|]. split; [reflexivity|].
    split; [congruence|]. split; [congruence|]. split.
    + intros t Ht. apply Hout. lia.
    + intros j lo0 hi0 c Hj Hc.
      destruct j as [|j]; [|destruct j; discriminate].
      cbn [nth_error] in Hj, Hc. injection Hj as <- <-. injection Hc as <-.
      split; [lia|]. split; [lia|]. split; [lia|].
      intros t Ht. cbn [snd]. apply Hin. lia.
  - (* a sample followed by others: the slice spans its declared rows *)
    cbn [length] in Hi.
    destruct (Z.eqb_spec i (batch_size - 1)) as [He|_]; [lia|]. cbn [negb].
    rewrite slice_in_range by lia.
    replace (P + w - P) with w by lia.
    set (lo := Z.to_nat P). set (len := Z.to_nat w).
    destruct (rotary_embedding_rows positions self1 (query_buf st) (key_buf st) lo len)
      as (Lq & Lk & Hout & Hin); try lia.
    set (qk := rotary_embedding (Torch.view_rows (lo, len) positions)
                 (lo, len) (lo, len) self1 (query_buf st) (key_buf st)) in *.
    set (st1 := {| self_ := self1; query_buf := fst qk; key_buf := snd qk;
                   query_list := query_list st ++ [(lo, len)];
                   key_list := key_list st ++ [(lo, len)]; _prev := P + w |}).
    destruct (IH (i + 1) st1) as (st' & Hloop & Hql & Hkl & Lq' & Lk' & Hbefore & Hranges).
    + discriminate.
    + exact Hrest.
    + cbn [length]. lia.
    + cbn [st1 query_buf]. congruence.
    + cbn [st1 key_buf]. congruence.
    + cbn [st1 _prev]. lia.
    + cbn [st1 _prev]. lia.
    + exact Hwf1.
    + exists st'. split; [exact Hloop|].
      cbn [st1 query_list key_list query_buf key_buf _prev self_] in Hql, Hkl, Hbefore, Hranges.
      change (declared_ranges is_continue (Z.of_nat N) P (seq_len :: seq_len2 :: rest'))
        with ((P, P + w) :: declared_ranges is_continue (Z.of_nat N) (P + w) (seq_len2 :: rest')).
      cbn [map]. unfold view_of_range at 1 3. cbn [fst snd].
      replace (P + w - P) with w by lia. fold lo len.
      rewrite Hql, Hkl, <- !app_assoc. cbn [app].
      split; [reflexivity|]. split; [reflexivity|].
      split; [exact Lq'|]. split; [exact Lk'|]. split.
      * intros t Ht. destruct (Hbefore t ltac:(lia)) as [E1 E2].
        rewrite E1, E2. apply Hout. lia.
      * intros j lo0 hi0 c Hj Hc. destruct j as [|j].
        -- cbn in Hj, Hc. injection Hj as <- <-. injection Hc as <-.
           cbn [snd]. repeat split; try lia.
           ++ destruct (Hbefore t ltac:(lia)) as [E1 _]. rewrite E1. apply Hin. lia.
           ++ destruct (Hbefore t ltac:(lia)) as [_ E2]. rewrite E2. apply Hin. lia.
        -- cbn [nth_error] in Hj, Hc.
           destruct (Hranges j lo0 hi0 c Hj Hc) as (B1 & B2 & B3 & Hrot).
           repeat split; try lia.
           ++ destruct (Hrot t ltac:(lia)) as [E1 _]. rewrite E1.
              f_equal. apply Hout. lia.
           ++ destruct (Hrot t ltac:(lia)) as [_ E2]. rewrite E2.
              f_equal. apply Hout. lia.
Qed.

Lemma declared_ranges_length (is_continue : bool) (n : Z) (seq_lens : list Z) :
  forall start, length (declared_ranges is_continue n start seq_lens) = length seq_lens.
Proof.
  induction seq_lens as [|seq_len rest IH]; intros start; [reflexivity|].
  destruct rest as [|seq_len2 rest']; [reflexivity|].
  change (declared_ranges is_continue n start (seq_len :: seq_len2 :: rest'))
    with ((start, start + sample_width is_continue seq_len)
            :: declared_ranges is_continue n
                 (start + sample_width is_continue seq_len) (seq_len2 :: rest')).
  cbn [length]. rewrite IH. reflexivity.
Qed.

Lemma update_calls_length self0 (lens : list Z) :
  length (update_calls self0 lens) = length lens.
Proof.
  revert self0. induction lens as [|t rest IH]; intros self0; [reflexivity|].
  cbn [update_calls]. destruct (_update_cos_sin_cache self0 t);
    cbn [length]; rewrite IH; reflexivity.
Qed.

(** The declared ranges cover every row from [start] on. *)
Lemma declared_ranges_cover (is_continue : bool) (n : Z) (seq_lens : list Z) :
  forall start t,
    seq_lens <> [] -> Forall (fun l => 1 <= l) seq_lens ->
    start <= t < n ->
    exists j lo hi,
      nth_error (declared_ranges is_continue n start seq_lens) j = Some (lo, hi) /\
      lo <= t < hi.
Proof.
  induction seq_lens as [|seq_len rest IH]; intros start t Hne Hall Ht; [contradiction|].
  apply Forall_cons_iff in Hall. destruct Hall as [Hlen Hrest].
  destruct rest as [|seq_len2 rest'].
  - exists 0%nat, start, n. split; [reflexivity|lia].
  - change (declared_ranges is_continue n start (seq_len :: seq_len2 :: rest'))
      with ((start, start + sample_width is_continue seq_len)
              :: declared_ranges is_continue n
                   (start + sample_width is_continue seq_len) (seq_len2 :: rest')).
    destruct (Z.lt_ge_cases t (start + sample_width is_continue seq_len)) as [Hin|Hout].
    + exists 0%nat, start, (start + sample_width is_continue seq_len).
      split; [reflexivity|lia].
    + destruct (IH (start + sample_width is_continue seq_len) t) as (j & lo & hi & Hj & Hb);
        [discriminate|exact Hrest|lia|].
      exists (S j), lo, hi. split; [exact Hj|exact Hb].
Qed.

(** Concatenating the declared views of a buffer gives the buffer back,
    from [start] on. *)
Lemma declared_ranges_concat {A} (is_continue : bool) (buf : list A) (seq_lens : list Z) :
  forall start,
    seq_lens <> [] -> Forall (fun l => 1 <= l) seq_lens ->
    0 <= start ->
    start + declared_rows is_continue seq_lens <= Z.of_nat (length buf) ->
    concat (map (fun v => Torch.view_rows v buf)
              (map view_of_range
                 (declared_ranges is_continue (Z.of_nat (length buf)) start seq_lens)))
    = skipn (Z.to_nat start) buf.
Proof.
  induction seq_lens as [|seq_len rest IH]; intros start Hne Hall Hs Hrows; [contradiction|].
  apply Forall_cons_iff in Hall. destruct Hall as [Hlen Hrest].
  pose proof (sample_width_pos is_continue seq_len Hlen) as Hw.
  pose proof (declared_rows_nonneg is_continue rest Hrest) as Hrest0.
  assert (Hrows' : start + sample_width is_continue seq_len
                     + declared_rows is_continue rest <= Z.of_nat (length buf)).
  { cbn [declared_rows fold_right] in Hrows. unfold declared_rows. lia. }
  destruct rest as [|seq_len2 rest'].
  - cbn [declared_ranges map concat]. rewrite app_nil_r.
    unfold view_of_range, Torch.view_rows. cbn [fst snd].
    apply firstn_all2. rewrite length_skipn. lia.
  - change (declared_ranges is_continue (Z.of_nat (length buf)) start
              (seq_len :: seq_len2 :: rest'))
      with ((start, start + sample_width is_continue seq_len)
              :: declared_ranges is_continue (Z.of_nat (length buf))
                   (start + sample_width is_continue seq_len) (seq_len2 :: rest')).
    cbn [map concat]. rewrite IH; [|discriminate|exact Hrest|lia|lia].
    unfold view_of_range, Torch.view_rows. cbn [fst snd].
    set (w := sample_width is_continue seq_len) in *.
    replace (start + w - start) with w by lia.
    replace (Z.to_nat (start + w)) with (Z.to_nat w + Z.to_nat start)%nat by lia.
    rewrite <- skipn_skipn. apply firstn_skipn.
Qed.

End ForwardFacts.

(* ================================================================== *)
(** * The recompute policy: statements *)
(* ================================================================== *)




(** C10.  Construction builds the baseline table, [max_position_embeddings]
    rows from the unscaled base, while [_seq_len_cached] is 0 and
    [_ntk_alpha_cached] is 1.  The test of the first call therefore
    succeeds for every [true_len >= 1], whatever the alpha, and on a
    well-configured instance the first call replaces the table by one of
    [max(2 * true_len, 16)] rows. *)
Theorem first_call_rebuilds {F : Type} `{FloatOps F}
    (cfg : Config) (seq_length : Z) :
  0 <= rotary_dim cfg -> 0 <= max_position_embeddings cfg ->
  exists self0 : Qwen F,
    Qwen_init cfg seq_length = Ok self0 /\
    _seq_len_cached self0 = 0 /\
    _ntk_alpha_cached self0 = 1 /\
    Z.of_nat (length (cos_sin_cache self0)) = max_position_embeddings cfg /\
    (forall p, 0 <= p < max_position_embeddings cfg ->
       nth_error (cos_sin_cache self0) (Z.to_nat p)
       = Some (map to_dtype
                 (table_row (inv_freq_of (rotary_dim cfg) (of_int (base cfg)))
                            (of_int p)))) /\
    (forall true_len alpha, 1 <= true_len ->
       needs_rebuild self0 true_len alpha = true) /\
    (forall true_len, 1 <= true_len -> 1 <= seq_length -> rotary_dim cfg <> 2 ->
       exists self1,
         _update_cos_sin_cache self0 true_len = Ok self1 /\
         self1 <> self0 /\
         _seq_len_cached self1 = Z.max (2 * true_len) 16 /\
         Z.of_nat (length (cos_sin_cache self1)) = Z.max (2 * true_len) 16).
Proof.
  intros Hrd Hmpe.
  destruct (Qwen_init_ok (F := F) cfg seq_length Hrd Hmpe)
    as (self0 & Hinit & Hcfg & Hlen & Hcached & Halpha & Hcache).
  exists self0. split; [exact Hinit|]. split; [exact Hcached|]. split; [exact Halpha|].
  split; [rewrite Hcache; apply table_length; exact Hmpe|].
  split; [intros p Hp; rewrite Hcache; apply table_nth; exact Hp|].
  assert (Htest : forall true_len alpha, 1 <= true_len ->
                    needs_rebuild self0 true_len alpha = true).
  { intros t a Ht. apply needs_rebuild_iff. left. lia. }
  split; [exact Htest|].
  intros t Ht Hr Hrd2.
  pose proof (get_ntk_alpha_pos seq_length t ltac:(lia) ltac:(lia)) as Ha.
  rewrite <- Hlen in Ha.
  eexists. split.
  - apply (update_rebuild _ _ _ Ha (Htest t _ Ht)); rewrite Hcfg; assumption.
  - cbn [_seq_len_cached cos_sin_cache]. split; [|split].
    + intros E. apply (f_equal (@_seq_len_cached F)) in E.
      cbn [_seq_len_cached] in E. lia.
    + reflexivity.
    + apply table_length. lia.
Qed.

(** C8.  From the instance the constructor returns, any sequence of calls
    whose requested lengths never decrease gives cached lengths that never
    decrease, the initial 0 included; and when the lengths are all at
    least 1 on a well-configured instance, no call of the sequence
    raises. *)
Theorem cached_length_never_decreases {F : Type} `{FloatOps F}
    (cfg : Config) (seq_length : Z) :
  0 <= rotary_dim cfg -> 0 <= max_position_embeddings cfg ->
  exists self0 : Qwen F,
    Qwen_init cfg seq_length = Ok self0 /\
    forall lens : list Z,
      Sorted Z.le lens ->
      Sorted Z.le
        (_seq_len_cached self0
           :: map (fun c => _seq_len_cached (snd c)) (update_calls self0 lens)) /\
      (1 <= seq_length -> rotary_dim cfg <> 2 -> Forall (fun t => 1 <= t) lens ->
         Forall (fun c => fst c = None) (update_calls self0 lens)).
Proof.
  intros Hrd Hmpe.
  destruct (Qwen_init_ok (F := F) cfg seq_length Hrd Hmpe)
    as (self0 & Hinit & Hcfg & Hlen & Hcached & _).
  exists self0. split; [exact Hinit|]. intros lens Hs. split.
  - apply update_calls_sorted; [exact Hs|]. intros t _. lia.
  - intros Hr Hrd2 Hall. apply update_calls_no_exception;
      [rewrite Hlen|rewrite Hcfg|rewrite Hcfg|]; assumption.
Qed.

(** ** The alpha function as computed *)

Section AlphaAsComputed.
Context {F : Type} `{PyMath F}.

Lemma alpha_float_pos (r t : Z) :
  0 < r -> 0 < t ->
  AlphaFloat.get_ntk_alpha r t =
    Ok (Alpha.pow2_minus_1_max1
          (math_ceil (float_add_int (math_log (int_true_div t r) 2) 1))).
Proof.
  intros Hr Ht. unfold AlphaFloat.get_ntk_alpha.
  destruct (Z.eqb_spec r 0); [lia|].
  destruct (Z.leb_spec (t * r) 0); [nia|]. reflexivity.
Qed.


(** The ceiling of the context value over the reals. *)
Lemma Rceil_context (r t : Z) :
  0 < r -> 0 < t ->
  Alpha.Rceil (ln (IZR t / IZR r) / ln 2 + 1) = Alpha.ceil_log2_ratio t r + 1.
Proof.
  intros Hr Ht. apply Rceil_log2_bracket.
  - apply Rdiv_lt_0_compat; apply IZR_lt; assumption.
  - apply ceil_log2_ratio_bracket; assumption.
Qed.

(** Where the float context value has the ceiling of the real one, the
    code returns the exact alpha. *)
Lemma alpha_float_exact (r t : Z) :
  0 < r -> 0 < t ->
  math_ceil (float_add_int (math_log (int_true_div t r) 2) 1)
    = Alpha.Rceil (ln (IZR t / IZR r) / ln 2 + 1) ->
  AlphaFloat.get_ntk_alpha r t = Alpha.get_ntk_alpha r t.
Proof.
  intros Hr Ht Hc. rewrite alpha_float_pos, get_ntk_alpha_pos by assumption.
  rewrite Hc, Rceil_context by assumption. reflexivity.
Qed.

End AlphaAsComputed.


(* ================================================================== *)
(** * The batch driver: statements *)
(* ================================================================== *)

Section ForwardStatements.
Context {F : Type} `{FloatOps F} `{RotaryKernel F}.

Lemma forward_loop_first_raises (positions : list Z) (is_continue : bool)
    (batch_size i seq_len : Z) (rest : list Z) (st : LoopState F) (e : exn) :
  _update_cos_sin_cache (self_ st) seq_len = Raise e ->
  forward_loop positions is_continue batch_size i (seq_len :: rest) st = (Some e, st).
Proof. intros Hu. cbn [forward_loop]. rewrite Hu. reflexivity. Qed.

End ForwardStatements.

(** C3.  On a well-configured instance, for a non-empty batch of lengths
    that are all at least 1, over positions, query and key buffers of one
    length that hold at least the declared rows: [forward] returns; the
    views it takes of the buffers are the declared ranges, consecutive from
    row 0 in the order of the batch, each spanning the declared length of
    its sample (prefill) or one row (decode) and the last one running to
    the end of the buffers; every row lies in one of them; and the
    returned buffers, which hold what the kernel wrote in place, have the
    rows of the input in the input order, row [t] being row [t] of the
    input rotated at position [positions[t]] under the cache of the sample
    whose range holds [t]. *)
Theorem forward_partitions_batch {F : Type} `{FloatOps F} `{RotaryKernel F}
    (self : Qwen F) (positions : list Z) (query key : list (list F))
    (input_metadata : InputMetadata) (is_continue : bool) (seq_lens : list Z) :
  select_seq_lens input_metadata = (is_continue, seq_lens) ->
  well_configured self ->
  seq_lens <> [] -> Forall (fun l => 1 <= l) seq_lens ->
  length positions = length query -> length key = length query ->
  declared_rows is_continue seq_lens <= Z.of_nat (length query) ->
  let n := Z.of_nat (length query) in
  let ranges := declared_ranges is_continue n 0 seq_lens in
  exists st q' k',
    forward_loop positions is_continue (Z.of_nat (length seq_lens)) 0 seq_lens
      {| self_ := self; query_buf := query; key_buf := key;
         query_list := []; key_list := []; _prev := 0 |} = (None, st) /\
    query_list st = map view_of_range ranges /\
    key_list st = map view_of_range ranges /\
    length ranges = length seq_lens /\
    returned (forward self positions query key input_metadata) = Ok (q', k') /\
    query_after (forward self positions query key input_metadata) = q' /\
    key_after (forward self positions query key input_metadata) = k' /\
    length q' = length query /\ length k' = length key /\
    (forall t, 0 <= t < n ->
       exists j lo hi, nth_error ranges j = Some (lo, hi) /\ lo <= t < hi) /\
    (forall j lo hi, nth_error ranges j = Some (lo, hi) ->
       0 <= lo /\ lo < hi /\ hi <= n /\
       exists self_j,
         nth_error (update_calls self seq_lens) j = Some (None, self_j) /\
         forall t, lo <= Z.of_nat t < hi ->
           nth_error q' t = option_map (rotated_row positions self_j t) (nth_error query t) /\
           nth_error k' t = option_map (rotated_row positions self_j t) (nth_error key t)).
Proof.
  intros Hsel Hwf Hne Hall Hpos Hkey Hrows n ranges.
  destruct (forward_loop_rows positions is_continue (Z.of_nat (length seq_lens))
              (length query) Hpos seq_lens 0
              {| self_ := self; query_buf := query; key_buf := key;
                 query_list := []; key_list := []; _prev := 0 |})
    as (st & Hloop & Hql & Hkl & Lq & Lk & _ & Hranges);
    try assumption; try reflexivity; cbn [_prev]; try lia.
  cbn [query_list key_list query_buf key_buf self_ _prev app] in Hql, Hkl, Hranges.
  fold n in Hql, Hkl, Hranges. fold ranges in Hql, Hkl, Hranges.
  assert (Hcat : forall buf : list (list F), length buf = length query ->
            Torch.cat (map (fun v => Torch.view_rows v buf) (map view_of_range ranges))
            = Ok buf).
  { intros buf Hb. unfold Torch.cat.
    pose proof (declared_ranges_concat is_continue buf seq_lens 0 Hne Hall
                  ltac:(lia) ltac:(rewrite Hb; lia)) as Hc.
    rewrite Hb in Hc. fold n in Hc. fold ranges in Hc. cbn [Z.to_nat skipn] in Hc.
    destruct (map (fun v => Torch.view_rows v buf) (map view_of_range ranges)) eqn:E.
    - apply (f_equal (@length _)) in E. rewrite !length_map in E.
      unfold ranges in E. rewrite declared_ranges_length in E.
      destruct seq_lens; [contradiction|discriminate].
    - rewrite Hc. reflexivity. }
  exists st, (query_buf st), (key_buf st).
  split; [exact Hloop|]. split; [exact Hql|]. split; [exact Hkl|].
  split; [apply declared_ranges_length|].
  split.
  { unfold forward. rewrite Hsel, Hloop, Hql, Hkl.
    rewrite (Hcat (query_buf st) Lq). cbn [bind].
    rewrite (Hcat (key_buf st)) by congruence. reflexivity. }
  split; [unfold forward; rewrite Hsel, Hloop; reflexivity|].
  split; [unfold forward; rewrite Hsel, Hloop; reflexivity|].
  split; [exact Lq|]. split; [congruence|]. split.
  - intros t Ht. apply declared_ranges_cover; assumption.
  - intros j lo hi Hj.
    assert (Hlt : (j < length (update_calls self seq_lens))%nat).
    { rewrite update_calls_length, <- (declared_ranges_length is_continue n seq_lens 0).
      apply nth_error_Some. fold ranges. congruence. }
    destruct (nth_error (update_calls self seq_lens) j) as [[oe self_j]|] eqn:Hc;
      [|apply nth_error_Some in Hlt; contradiction].
    destruct Hwf as (Hr & Hrd & Hrd2).
    pose proof (update_calls_no_exception seq_lens self Hr Hrd Hrd2 Hall) as Hnone.
    rewrite Forall_forall in Hnone.
    pose proof (Hnone _ (nth_error_In _ _ Hc)) as Hoe. cbn [fst] in Hoe. subst oe.
    destruct (Hranges j lo hi _ Hj Hc) as (B1 & B2 & B3 & Hrot).
    repeat split; try lia.
    exists self_j. split; [reflexivity|]. exact Hrot.
Qed.

(** C4, as the code has it.  A batch with no sample (both length fields
    empty) is not a no-op: the loop does not run, the concatenation of the
    empty list of slices raises, and nothing is returned; the instance and
    the buffers of the caller are left as they were. *)
Theorem forward_empty_batch_raises {F : Type} `{FloatOps F} `{RotaryKernel F}
    (self : Qwen F) (positions : list Z) (query key : list (list F)) :
  let out := forward self positions query key
               {| prompt_lens := []; context_lens := [] |} in
  returned out = Raise RuntimeError /\
  self_after out = self /\ query_after out = query /\ key_after out = key.
Proof. cbv zeta. repeat split. Qed.

(** C5, as the code has it.  Metadata with both fields populated is not
    rejected: [forward] reads the prefill lengths and never looks at the
    decode lengths, so the outcome is the one for the same prefill lengths
    with an empty decode tensor.  Metadata with neither populated makes
    the call raise. *)
Theorem forward_reads_one_field {F : Type} `{FloatOps F} `{RotaryKernel F}
    (self : Qwen F) (positions : list Z) (query key : list (list F))
    (prompt_len : Z) (prompt_lens' context_lens' : list Z) :
  forward self positions query key
    {| prompt_lens := prompt_len :: prompt_lens'; context_lens := context_lens' |}
  = forward self positions query key
      {| prompt_lens := prompt_len :: prompt_lens'; context_lens := [] |} /\
  returned (forward self positions query key
              {| prompt_lens := []; context_lens := [] |}) = Raise RuntimeError.
Proof. split; reflexivity. Qed.

(** C6, as the code has it.  With [rotary_dim = 2] the fixed dynamic-NTK
    variant fails in its constructor, whatever the other parameters, before
    any table exists.  The adaptive variant does not: its constructor
    builds the baseline table and returns, and the division by zero is
    raised by the first call of the recompute policy, hence by the first
    [forward] on a batch whose first length is at least 1; that call
    leaves the instance and the buffers as they were. *)
Theorem rotary_dim_2 {F : Type} `{FloatOps F} `{RotaryKernel F}
    (cfg : Config) (scaling_factor : F) (seq_length : Z) :
  rotary_dim cfg = 2 -> 0 <= max_position_embeddings cfg -> 1 <= seq_length ->
  DynamicNTKScalingRotaryEmbedding_init cfg scaling_factor = Raise ZeroDivisionError /\
  exists self0 : Qwen F,
    Qwen_init cfg seq_length = Ok self0 /\
    Z.of_nat (length (cos_sin_cache self0)) = max_position_embeddings cfg /\
    (forall true_len, 1 <= true_len ->
       _update_cos_sin_cache self0 true_len = Raise ZeroDivisionError) /\
    (forall positions query key input_metadata is_continue seq_len rest,
       select_seq_lens input_metadata = (is_continue, seq_len :: rest) ->
       1 <= seq_len ->
       let out := forward self0 positions query key input_metadata in
       returned out = Raise ZeroDivisionError /\
       self_after out = self0 /\ query_after out = query /\ key_after out = key).
Proof.
  intros Hrd Hmpe Hr. split.
  - unfold DynamicNTKScalingRotaryEmbedding_init, RotaryEmbedding_init,
      ntk_compute_cos_sin_cache, float_div_int, true_div.
    rewrite Hrd. destruct (max_position_embeddings cfg =? 0); reflexivity.
  - destruct (Qwen_init_ok (F := F) cfg seq_length ltac:(lia) Hmpe)
      as (self0 & Hinit & Hcfg & Hlen & Hcached & Halpha & Hcache).
    exists self0. split; [exact Hinit|].
    split; [rewrite Hcache; apply table_length; exact Hmpe|].
    assert (Hup : forall true_len, 1 <= true_len ->
              _update_cos_sin_cache self0 true_len = Raise ZeroDivisionError).
    { intros t Ht.
      pose proof (get_ntk_alpha_pos seq_length t ltac:(lia) ltac:(lia)) as Ha.
      rewrite <- Hlen in Ha.
      apply (update_rotary_dim_2 _ _ _ Ha); [|rewrite Hcfg; exact Hrd].
      apply needs_rebuild_iff. left. lia. }
    split; [exact Hup|].
    intros positions query key md is_continue seq_len rest Hsel Hlen1.
    unfold forward. rewrite Hsel.
    rewrite (forward_loop_first_raises _ _ _ _ _ _ _ ZeroDivisionError)
      by (apply Hup; exact Hlen1).
    repeat split.
Qed.

(* ================================================================== *)
(** * Runs on concrete inputs *)
(* ================================================================== *)

Section Runs.
Import Symbolic.

Lemma small_qwen_well_configured (seq_length cached alpha : Z) :
  1 <= seq_length -> well_configured (small_qwen 4 seq_length cached alpha).
Proof. intros Hr. unfold well_configured. cbn. lia. Defined.







Lemma first_call_rebuilds_witness :
  0 <= rotary_dim (small_config 4) /\
  0 <= max_position_embeddings (small_config 4) /\
  exists self0 : Qwen term,
    Qwen_init (small_config 4) 8 = Ok self0 /\
    _seq_len_cached self0 = 0 /\
    Z.of_nat (length (cos_sin_cache self0)) = 4 /\
    needs_rebuild self0 1 1 = true.
Proof.
  assert (Hrd : 0 <= rotary_dim (small_config 4)) by (cbn; lia).
  assert (Hmpe : 0 <= max_position_embeddings (small_config 4)) by (cbn; lia).
  split; [exact Hrd|]. split; [exact Hmpe|].
  destruct (first_call_rebuilds (F := term) (small_config 4) 8 Hrd Hmpe)
    as (self0 & Hinit & Hc & _ & Hl & _ & Htest & _).
  exists self0. split; [exact Hinit|]. split; [exact Hc|]. split; [exact Hl|].
  apply Htest. lia.
Defined.

Lemma cached_length_never_decreases_witness :
  0 <= rotary_dim (small_config 4) /\
  0 <= max_position_embeddings (small_config 4) /\
  exists self0 : Qwen term,
    Qwen_init (small_config 4) 8 = Ok self0 /\
    Sorted Z.le
      (_seq_len_cached self0
         :: map (fun c => _seq_len_cached (snd c)) (update_calls self0 [3; 3; 9; 40])).
Proof.
  assert (Hrd : 0 <= rotary_dim (small_config 4)) by (cbn; lia).
  assert (Hmpe : 0 <= max_position_embeddings (small_config 4)) by (cbn; lia).
  split; [exact Hrd|]. split; [exact Hmpe|].
  destruct (cached_length_never_decreases (F := term) (small_config 4) 8 Hrd Hmpe)
    as (self0 & Hinit & Hseq).
  exists self0. split; [exact Hinit|].
  apply Hseq. repeat constructor; lia.
Defined.

(** The batch of the three prompts: the declared ranges, and the run. *)
Example example_prefill_ranges :
  declared_ranges false 20 0 [4; 7; 5] = [(0, 4); (4, 11); (11, 20)].
Proof. reflexivity. Qed.

Example example_decode_ranges :
  declared_ranges true 3 0 [10; 200; 9999] = [(0, 1); (1, 2); (2, 3)].
Proof. reflexivity. Qed.

Lemma forward_partitions_batch_witness :
  select_seq_lens example_prefill = (false, [4; 7; 5]) /\
  well_configured (small_qwen 4 8 0 1) /\
  [4; 7; 5] <> [] /\ Forall (fun l => 1 <= l) [4; 7; 5] /\
  length example_positions = length (example_rows 0) /\
  length (example_rows 100) = length (example_rows 0) /\
  declared_rows false [4; 7; 5] <= Z.of_nat (length (example_rows 0)) /\
  exists q' k',
    returned (forward (small_qwen 4 8 0 1) example_positions
                (example_rows 0) (example_rows 100) example_prefill) = Ok (q', k') /\
    length q' = 20%nat /\ length k' = 20%nat.
Proof.
  assert (Hsel : select_seq_lens example_prefill = (false, [4; 7; 5])) by reflexivity.
  assert (Hwf : well_configured (small_qwen 4 8 0 1))
    by (apply small_qwen_well_configured; lia).
  assert (Hne : [4; 7; 5] <> []) by discriminate.
  assert (Hall : Forall (fun l => 1 <= l) [4; 7; 5]) by (repeat constructor; lia).
  assert (Hpos : length example_positions = length (example_rows 0)) by reflexivity.
  assert (Hkey : length (example_rows 100) = length (example_rows 0)) by reflexivity.
  assert (Hrows : declared_rows false [4; 7; 5] <= Z.of_nat (length (example_rows 0)))
    by (vm_compute; discriminate).
  repeat (split; [assumption|]).
  destruct (forward_partitions_batch (small_qwen 4 8 0 1) example_positions
              (example_rows 0) (example_rows 100) example_prefill false [4; 7; 5]
              Hsel Hwf Hne Hall Hpos Hkey Hrows)
    as (st & q' & k' & _ & _ & _ & _ & Hret & _ & _ & Lq & Lk & _).
  exists q', k'. split; [exact Hret|]. split; [exact Lq|exact Lk].
Defined.

(** An empty batch on a freshly constructed instance. *)
Lemma empty_batch_is_an_error :
  exists self0 : Qwen term,
    Qwen_init (small_config 4) 8 = Ok self0 /\
    returned (forward self0 [] [] [] {| prompt_lens := []; context_lens := [] |})
      = Raise RuntimeError /\
    returned (forward self0 [] [] [] {| prompt_lens := []; context_lens := [] |})
      <> Ok ([], []).
Proof.
  eexists. split; [vm_compute; reflexivity|].
  split; [reflexivity|discriminate].
Qed.

(** Metadata with both fields populated: two prompt tokens and a decode
    length.  The call returns. *)
Lemma both_fields_populated_not_rejected :
  exists (self0 : Qwen term) q' k',
    Qwen_init (small_config 4) 8 = Ok self0 /\
    returned (forward self0 [0; 1] [[TInt 1]; [TInt 2]] [[TInt 3]; [TInt 4]]
                {| prompt_lens := [2]; context_lens := [7] |}) = Ok (q', k') /\
    length q' = 2%nat /\ length k' = 2%nat.
Proof.
  do 3 eexists. split; [vm_compute; reflexivity|].
  split; [vm_compute; reflexivity|]. split; reflexivity.
Qed.

(** The adaptive variant with [rotary_dim = 2]: the constructor returns an
    instance with its table of [max_position_embeddings] rows. *)
Lemma adaptive_rotary_dim_2_constructs :
  exists self0 : Qwen term,
    Qwen_init (small_config 2) 8 = Ok self0 /\
    rotary_dim (config self0) = 2 /\
    length (cos_sin_cache self0) = 4%nat /\
    Qwen_init (small_config 2) 8 <> Raise ZeroDivisionError.
Proof.
  eexists. split; [vm_compute; reflexivity|].
  split; [reflexivity|]. split; [reflexivity|]. vm_compute. discriminate.
Qed.

Lemma rotary_dim_2_witness :
  rotary_dim (small_config 2) = 2 /\
  0 <= max_position_embeddings (small_config 2) /\ 1 <= 8 /\
  DynamicNTKScalingRotaryEmbedding_init (small_config 2) (TInt 2)
    = Raise ZeroDivisionError /\
  exists self0 : Qwen term,
    Qwen_init (small_config 2) 8 = Ok self0 /\
    _update_cos_sin_cache self0 1 = Raise ZeroDivisionError.
Proof.
  assert (Hrd : rotary_dim (small_config 2) = 2) by reflexivity.
  assert (Hmpe : 0 <= max_position_embeddings (small_config 2)) by (cbn; lia).
  assert (Hr : 1 <= 8) by lia.
  split; [exact Hrd|]. split; [exact Hmpe|]. split; [exact Hr|].
  destruct (rotary_dim_2 (small_config 2) (TInt 2) 8 Hrd Hmpe Hr)
    as (Hntk & self0 & Hinit & _ & Hup & _).
  split; [exact Hntk|].
  exists self0. split; [exact Hinit|]. apply Hup. lia.
Defined.

(** Alpha around the reference length 8192, and below it. *)
Example alpha_steps :
  map (Alpha.get_ntk_alpha 8192) [1; 4096; 8192; 8193; 16384; 16385; 32768; 32769]
  = map Ok [1; 1; 1; 3; 3; 7; 7; 15].
Proof. reflexivity. Qed.

Example alpha_errors :
  Alpha.get_ntk_alpha 8192 0 = Raise ValueError /\
  Alpha.get_ntk_alpha 8192 (-3) = Raise ValueError /\
  Alpha.get_ntk_alpha 0 10 = Raise ZeroDivisionError.
Proof. repeat split. Qed.

(** A decode batch with context lengths 10, 200 and 9999 against the
    reference length 8192: each sample has its own alpha and rebuild. *)
Example decode_batch_updates :
  map (fun c => (fst c, _seq_len_cached (snd c), _ntk_alpha_cached (snd c)))
      (update_calls (small_qwen 4 8192 0 1) (context_lens example_decode))
  = [(None, 20, 1); (None, 400, 1); (None, 19998, 3)].
Proof. vm_compute. reflexivity. Qed.

(** Python slices: negative and out-of-range bounds. *)
Example slice_bounds :
  Torch.slice 20 11 None = (11%nat, 9%nat) /\
  Torch.slice 20 4 (Some 11) = (4%nat, 7%nat) /\
  Torch.slice 20 18 (Some 25) = (18%nat, 2%nat) /\
  Torch.slice 20 25 (Some 30) = (20%nat, 0%nat) /\
  Torch.slice 20 0 (Some (-1)) = (0%nat, 19%nat).
Proof. repeat split. Qed.

End Runs.

(* ================================================================== *)
(** * Further properties of the cache builders *)
(* ================================================================== *)

Section BuilderEntries.
Context {F : Type} `{FloatOps F}.

Lemma table_row_length (inv_freq : list F) (x : F) :
  length (map to_dtype (table_row inv_freq x)) = (2 * length inv_freq)%nat.
Proof.
  unfold table_row. rewrite length_map, length_app, !length_map. lia.
Qed.

Lemma table_row_cos (inv_freq : list F) (x f : F) (j : nat) :
  nth_error inv_freq j = Some f ->
  nth_error (map to_dtype (table_row inv_freq x)) j
  = Some (to_dtype (fcos (fmul x f))).
Proof.
  intros Hj. unfold table_row. rewrite nth_error_map.
  rewrite nth_error_app1
    by (rewrite length_map; apply nth_error_Some; congruence).
  rewrite nth_error_map, Hj. reflexivity.
Qed.

Lemma table_row_sin (inv_freq : list F) (x f : F) (j : nat) :
  nth_error inv_freq j = Some f ->
  nth_error (map to_dtype (table_row inv_freq x)) (length inv_freq + j)
  = Some (to_dtype (fsin (fmul x f))).
Proof.
  intros Hj. unfold table_row. rewrite nth_error_map.
  rewrite nth_error_app2 by (rewrite length_map; lia).
  rewrite length_map. replace (length inv_freq + j - length inv_freq)%nat with j by lia.
  rewrite nth_error_map, Hj. reflexivity.
Qed.

Lemma inv_freq_of_length (rd : Z) (b : F) :
  0 <= rd -> Z.of_nat (length (inv_freq_of rd b)) = (rd + 1) / 2.
Proof.
  intros Hrd. unfold inv_freq_of. rewrite length_map, length_seq.
  apply Z2Nat.id. apply Z.div_pos; lia.
Qed.

Lemma inv_freq_of_nth (rd : Z) (b : F) (j : Z) :
  0 <= j < (rd + 1) / 2 ->
  nth_error (inv_freq_of rd b) (Z.to_nat j)
  = Some (fdiv (of_int 1) (fpow b (fdiv (of_int (2 * j)) (of_int rd)))).
Proof.
  intros Hj. unfold inv_freq_of. rewrite nth_error_map, nth_error_seq.
  destruct (Nat.ltb_spec (Z.to_nat j) (Z.to_nat ((rd + 1) / 2))); [|lia].
  cbn [option_map Nat.add]. rewrite Z2Nat.id by lia. reflexivity.
Qed.

(** The entries of the row of a table at position [x]: first the
    cosines, then the sines, one of each per inverse frequency. *)
Lemma row_entries (rd : Z) (b x : F) :
  0 <= rd ->
  Z.of_nat (length (map to_dtype (table_row (inv_freq_of rd b) x)))
    = 2 * ((rd + 1) / 2) /\
  forall j, 0 <= j < (rd + 1) / 2 ->
    let f := fdiv (of_int 1) (fpow b (fdiv (of_int (2 * j)) (of_int rd))) in
    nth_error (map to_dtype (table_row (inv_freq_of rd b) x)) (Z.to_nat j)
      = Some (to_dtype (fcos (fmul x f))) /\
    nth_error (map to_dtype (table_row (inv_freq_of rd b) x))
              (Z.to_nat ((rd + 1) / 2 + j))
      = Some (to_dtype (fsin (fmul x f))).
Proof.
  intros Hrd. split.
  - rewrite table_row_length, Nat2Z.inj_mul, inv_freq_of_length by exact Hrd.
    reflexivity.
  - intros j Hj f. pose proof (inv_freq_of_nth rd b j Hj) as Hn. split.
    + apply table_row_cos. exact Hn.
    + replace (Z.to_nat ((rd + 1) / 2 + j))
        with (length (inv_freq_of rd b) + Z.to_nat j)%nat
        by (pose proof (inv_freq_of_length rd b Hrd); lia).
      apply table_row_sin. exact Hn.
Qed.

Lemma table_nth_scaled (g : Z -> F) (inv_freq : list F) (n p : Z) :
  0 <= p < n ->
  nth_error (map (map to_dtype)
               (cos_sin_table (map g (map Z.of_nat (seq 0 (Z.to_nat n)))) inv_freq))
            (Z.to_nat p)
  = Some (map to_dtype (table_row inv_freq (g p))).
Proof.
  intros Hp. rewrite cos_sin_table_rows, !map_map.
  rewrite nth_error_map, nth_error_seq.
  destruct (Nat.ltb_spec (Z.to_nat p) (Z.to_nat n)) as [_|Hge]; [|lia].
  cbn [option_map Nat.add]. rewrite Z2Nat.id by lia. reflexivity.
Qed.

Lemma linear_cache_ok (cfg : Config) (scaling_factor : F) :
  0 <= rotary_dim cfg ->
  0 <= arange_len (fmul (of_int (max_position_embeddings cfg)) scaling_factor) ->
  LinearScalingRotaryEmbedding_init cfg scaling_factor =
    Ok (map (map to_dtype)
          (cos_sin_table
             (map (fun ti => fdiv (of_int ti) scaling_factor)
                (map Z.of_nat
                   (seq 0 (Z.to_nat (arange_len
                      (fmul (of_int (max_position_embeddings cfg)) scaling_factor))))))
             (inv_freq_of (rotary_dim cfg) (of_int (base cfg))))).
Proof.
  intros Hrd Hlen.
  unfold LinearScalingRotaryEmbedding_init, RotaryEmbedding_init,
    linear_compute_cos_sin_cache.
  rewrite compute_inv_freq_ok by exact Hrd. cbn [bind].
  rewrite arange_unit by exact Hlen. reflexivity.
Qed.

Lemma ntk_cache_ok (cfg : Config) (scaling_factor : F) :
  max_position_embeddings cfg <> 0 -> rotary_dim cfg <> 2 ->
  0 <= rotary_dim cfg ->
  0 <= arange_len (fmul (of_int (max_position_embeddings cfg)) scaling_factor) ->
  DynamicNTKScalingRotaryEmbedding_init cfg scaling_factor =
    Ok (map (map to_dtype)
          (cos_sin_table
             (map of_int
                (map Z.of_nat
                   (seq 0 (Z.to_nat (arange_len
                      (fmul (of_int (max_position_embeddings cfg)) scaling_factor))))))
             (inv_freq_of (rotary_dim cfg) (ntk_effective_base cfg scaling_factor)))).
Proof.
  intros Hmpe Hrd2 Hrd Hlen.
  unfold DynamicNTKScalingRotaryEmbedding_init, RotaryEmbedding_init,
    ntk_compute_cos_sin_cache, float_div_int.
  destruct (Z.eqb_spec (max_position_embeddings cfg) 0); [contradiction|].
  cbn [bind]. rewrite true_div_ok by lia. cbn [bind].
  rewrite compute_inv_freq_ok by exact Hrd. cbn [bind].
  rewrite arange_unit by exact Hlen. reflexivity.
Qed.

End BuilderEntries.

(** X3.  When the constructors return and what they raise, with
    [max_len] the float [max_position_embeddings * scaling_factor] and
    [arange_len max_len] not negative exactly when [torch.arange(max_len)]
    accepts its bound.  The baseline and the adaptive constructor return
    exactly when [rotary_dim] and [max_position_embeddings] are not
    negative, the linear one exactly when [rotary_dim] is not negative and
    [torch.arange] accepts [max_len], and each raises [RuntimeError]
    otherwise.  The fixed dynamic-NTK constructor returns exactly when, in
    addition, [max_position_embeddings] is not 0 and [rotary_dim] is not
    2; it raises [ZeroDivisionError] when one of these two is violated. *)
Theorem constructors_return {F : Type} `{FloatOps F}
    (cfg : Config) (scaling_factor : F) (seq_length : Z) :
  let max_len := fmul (of_int (max_position_embeddings cfg)) scaling_factor in
  ((exists cache, RotaryEmbedding_init _compute_cos_sin_cache cfg = Ok cache) <->
     0 <= rotary_dim cfg /\ 0 <= max_position_embeddings cfg) /\
  (~ (0 <= rotary_dim cfg /\ 0 <= max_position_embeddings cfg) ->
     RotaryEmbedding_init _compute_cos_sin_cache cfg = Raise RuntimeError /\
     Qwen_init (F := F) cfg seq_length = Raise RuntimeError) /\
  ((exists self0 : Qwen F, Qwen_init cfg seq_length = Ok self0) <->
     0 <= rotary_dim cfg /\ 0 <= max_position_embeddings cfg) /\
  ((exists cache, LinearScalingRotaryEmbedding_init cfg scaling_factor = Ok cache) <->
     0 <= rotary_dim cfg /\ 0 <= arange_len max_len) /\
  (~ (0 <= rotary_dim cfg /\ 0 <= arange_len max_len) ->
     LinearScalingRotaryEmbedding_init cfg scaling_factor = Raise RuntimeError) /\
  ((exists cache, DynamicNTKScalingRotaryEmbedding_init cfg scaling_factor = Ok cache) <->
     max_position_embeddings cfg <> 0 /\ rotary_dim cfg <> 2 /\
     0 <= rotary_dim cfg /\ 0 <= arange_len max_len) /\
  (max_position_embeddings cfg = 0 \/ rotary_dim cfg = 2 ->
     DynamicNTKScalingRotaryEmbedding_init cfg scaling_factor = Raise ZeroDivisionError) /\
  (max_position_embeddings cfg <> 0 -> rotary_dim cfg <> 2 ->
   ~ (0 <= rotary_dim cfg /\ 0 <= arange_len max_len) ->
     DynamicNTKScalingRotaryEmbedding_init cfg scaling_factor = Raise RuntimeError).
Proof.
  intros max_len.
  assert (Hbase : ~ (0 <= rotary_dim cfg /\ 0 <= max_position_embeddings cfg) ->
            RotaryEmbedding_init _compute_cos_sin_cache cfg = Raise RuntimeError).
  { intros Hno. unfold RotaryEmbedding_init, _compute_cos_sin_cache.
    destruct (Z.lt_ge_cases (rotary_dim cfg) 0) as [Hrd|Hrd].
    - rewrite compute_inv_freq_negative by exact Hrd. reflexivity.
    - rewrite compute_inv_freq_ok by exact Hrd. cbn [bind].
      rewrite arange_negative by lia. reflexivity. }
  assert (Hlin : ~ (0 <= rotary_dim cfg /\ 0 <= arange_len max_len) ->
            LinearScalingRotaryEmbedding_init cfg scaling_factor = Raise RuntimeError).
  { intros Hno. unfold LinearScalingRotaryEmbedding_init, RotaryEmbedding_init,
      linear_compute_cos_sin_cache.
    destruct (Z.lt_ge_cases (rotary_dim cfg) 0) as [Hrd|Hrd].
    - rewrite compute_inv_freq_negative by exact Hrd. reflexivity.
    - rewrite compute_inv_freq_ok by exact Hrd. cbn [bind].
      fold max_len. rewrite arange_negative by lia. reflexivity. }
  assert (Hzero : max_position_embeddings cfg = 0 \/ rotary_dim cfg = 2 ->
            DynamicNTKScalingRotaryEmbedding_init cfg scaling_factor
            = Raise ZeroDivisionError).
  { intros Hz. unfold DynamicNTKScalingRotaryEmbedding_init, RotaryEmbedding_init,
      ntk_compute_cos_sin_cache, float_div_int, true_div.
    destruct (Z.eqb_spec (max_position_embeddings cfg) 0); [reflexivity|].
    cbn [bind]. destruct (Z.eqb_spec (rotary_dim cfg - 2) 0); [reflexivity|lia]. }
  assert (Hntk : max_position_embeddings cfg <> 0 -> rotary_dim cfg <> 2 ->
            ~ (0 <= rotary_dim cfg /\ 0 <= arange_len max_len) ->
            DynamicNTKScalingRotaryEmbedding_init cfg scaling_factor
            = Raise RuntimeError).
  { intros Hmpe Hrd2 Hno.
    unfold DynamicNTKScalingRotaryEmbedding_init, RotaryEmbedding_init,
      ntk_compute_cos_sin_cache, float_div_int.
    destruct (Z.eqb_spec (max_position_embeddings cfg) 0); [contradiction|].
    cbn [bind]. rewrite true_div_ok by lia. cbn [bind].
    destruct (Z.lt_ge_cases (rotary_dim cfg) 0) as [Hrd|Hrd].
    - rewrite compute_inv_freq_negative by exact Hrd. reflexivity.
    - rewrite compute_inv_freq_ok by exact Hrd. cbn [bind].
      fold max_len. rewrite arange_negative by lia. reflexivity. }
  assert (D1 : (0 <= rotary_dim cfg /\ 0 <= max_position_embeddings cfg) \/
               ~ (0 <= rotary_dim cfg /\ 0 <= max_position_embeddings cfg)) by lia.
  assert (D2 : (0 <= rotary_dim cfg /\ 0 <= arange_len max_len) \/
               ~ (0 <= rotary_dim cfg /\ 0 <= arange_len max_len)) by lia.
  split; [split|].
  { intros [cache Hc]. destruct D1 as [D|D]; [exact D|].
    rewrite (Hbase D) in Hc. discriminate. }
  { intros [Hrd Hmpe]. eexists. apply baseline_cache_ok; assumption. }
  split.
  { intros Hno. split; [apply Hbase; exact Hno|].
    unfold Qwen_init. rewrite (Hbase Hno). reflexivity. }
  split; [split|].
  { intros [self0 Hc]. destruct D1 as [D|D]; [exact D|].
    unfold Qwen_init in Hc. rewrite (Hbase D) in Hc. discriminate. }
  { intros [Hrd Hmpe].
    destruct (Qwen_init_ok (F := F) cfg seq_length Hrd Hmpe) as (self0 & Hi & _).
    exists self0. exact Hi. }
  split; [split|].
  { intros [cache Hc]. destruct D2 as [D|D]; [exact D|].
    rewrite (Hlin D) in Hc. discriminate. }
  { intros [Hrd Hlen]. eexists. apply linear_cache_ok; assumption. }
  split; [exact Hlin|].
  split; [split|].
  { intros [cache Hc].
    assert (Hmpe : max_position_embeddings cfg <> 0).
    { intros E. rewrite (Hzero (or_introl E)) in Hc. discriminate. }
    assert (Hrd2 : rotary_dim cfg <> 2).
    { intros E. rewrite (Hzero (or_intror E)) in Hc. discriminate. }
    split; [exact Hmpe|]. split; [exact Hrd2|].
    destruct D2 as [D|D]; [exact D|].
    rewrite (Hntk Hmpe Hrd2 D) in Hc. discriminate. }
  { intros (Hmpe & Hrd2 & Hrd & Hlen). eexists. apply ntk_cache_ok; assumption. }
  split; [exact Hzero|exact Hntk].
Qed.

(** X4.  The baseline table.  For a [rotary_dim] and a
    [max_position_embeddings] that are not negative the constructor
    returns a table of [max_position_embeddings] rows; each row has
    [2 * ceil(rotary_dim / 2)] entries, that is [rotary_dim] when it is
    even; entry [j] of row [p] is the cosine and entry
    [ceil(rotary_dim / 2) + j] the sine of [p * inv_freq[j]], with
    [inv_freq[j] = 1 / base ** (2j / rotary_dim)], both in the default
    dtype. *)
Theorem baseline_cache_entries {F : Type} `{FloatOps F} (cfg : Config) :
  0 <= rotary_dim cfg -> 0 <= max_position_embeddings cfg ->
  exists cache,
    RotaryEmbedding_init _compute_cos_sin_cache cfg = Ok cache /\
    Z.of_nat (length cache) = max_position_embeddings cfg /\
    forall p, 0 <= p < max_position_embeddings cfg ->
      exists row,
        nth_error cache (Z.to_nat p) = Some row /\
        Z.of_nat (length row) = 2 * ((rotary_dim cfg + 1) / 2) /\
        (Z.even (rotary_dim cfg) = true -> Z.of_nat (length row) = rotary_dim cfg) /\
        forall j, 0 <= j < (rotary_dim cfg + 1) / 2 ->
          let inv_freq_j :=
            fdiv (of_int 1)
                 (fpow (of_int (base cfg))
                       (fdiv (of_int (2 * j)) (of_int (rotary_dim cfg)))) in
          nth_error row (Z.to_nat j)
            = Some (to_dtype (fcos (fmul (of_int p) inv_freq_j))) /\
          nth_error row (Z.to_nat ((rotary_dim cfg + 1) / 2 + j))
            = Some (to_dtype (fsin (fmul (of_int p) inv_freq_j))).
Proof.
  intros Hrd Hmpe. eexists.
  split; [apply baseline_cache_ok; assumption|].
  split; [apply table_length; exact Hmpe|].
  intros p Hp. eexists. split; [apply table_nth; exact Hp|].
  destruct (row_entries (rotary_dim cfg) (of_int (base cfg)) (of_int p) Hrd)
    as [Hlen Hent].
  split; [exact Hlen|]. split; [|exact Hent].
  intros Heven. rewrite Hlen.
  apply Z.even_spec in Heven. destruct Heven as [m Hm]. rewrite Hm.
  replace (2 * m + 1) with (1 + m * 2) by lia.
  rewrite Z.div_add by lia. cbn. lia.
Qed.

(** X5.  The linear-scaling table.  For a [rotary_dim] that is not
    negative and a scaled length [max_position_embeddings * scaling_factor]
    that [torch.arange] accepts, giving [n] elements, the constructor
    returns a table of [n] rows, and row [p] is the row the baseline formula gives at the
    position [p / scaling_factor], with the inverse frequencies of the
    unscaled base. *)
Theorem linear_cache_rows {F : Type} `{FloatOps F}
    (cfg : Config) (scaling_factor : F) :
  let n := arange_len (fmul (of_int (max_position_embeddings cfg)) scaling_factor) in
  0 <= rotary_dim cfg -> 0 <= n ->
  exists cache,
    LinearScalingRotaryEmbedding_init cfg scaling_factor = Ok cache /\
    Z.of_nat (length cache) = n /\
    forall p, 0 <= p < n ->
      nth_error cache (Z.to_nat p)
      = Some (map to_dtype
                (table_row (inv_freq_of (rotary_dim cfg) (of_int (base cfg)))
                           (fdiv (of_int p) scaling_factor))).
Proof.
  intros n Hrd Hn. eexists.
  split; [apply linear_cache_ok; assumption|]. fold n. split.
  - rewrite cos_sin_table_rows, !length_map, length_seq. lia.
  - intros p Hp.
    apply (table_nth_scaled (fun ti => fdiv (of_int ti) scaling_factor)).
    exact Hp.
Qed.

(** X6.  The fixed dynamic-NTK table.  When the constructor returns
    (see X3), with [n] the number of elements [torch.arange] gives for the
    scaled length, the table has [n] rows and row [p] is built at the unscaled position [p] with the
    inverse frequencies of the effective base
    [base * ((s * max_len / max_position_embeddings) - (s - 1))
            ** (rotary_dim / (rotary_dim - 2))]. *)
Theorem ntk_cache_rows {F : Type} `{FloatOps F}
    (cfg : Config) (scaling_factor : F) :
  let n := arange_len (fmul (of_int (max_position_embeddings cfg)) scaling_factor) in
  max_position_embeddings cfg <> 0 -> rotary_dim cfg <> 2 ->
  0 <= rotary_dim cfg -> 0 <= n ->
  exists cache,
    DynamicNTKScalingRotaryEmbedding_init cfg scaling_factor = Ok cache /\
    Z.of_nat (length cache) = n /\
    forall p, 0 <= p < n ->
      nth_error cache (Z.to_nat p)
      = Some (map to_dtype
                (table_row
                   (inv_freq_of (rotary_dim cfg) (ntk_effective_base cfg scaling_factor))
                   (of_int p))).
Proof.
  intros n Hmpe Hrd2 Hrd Hn. eexists.
  split; [apply ntk_cache_ok; assumption|]. fold n. split.
  - apply table_length. exact Hn.
  - intros p Hp. apply table_nth. exact Hp.
Qed.

Lemma baseline_cache_entries_witness :
  0 <= rotary_dim (Symbolic.small_config 4) /\
  0 <= max_position_embeddings (Symbolic.small_config 4) /\
  exists cache : list (list Symbolic.term),
    RotaryEmbedding_init _compute_cos_sin_cache (Symbolic.small_config 4) = Ok cache /\
    Z.of_nat (length cache) = 4.
Proof.
  assert (Hrd : 0 <= rotary_dim (Symbolic.small_config 4)) by (cbn; lia).
  assert (Hmpe : 0 <= max_position_embeddings (Symbolic.small_config 4)) by (cbn; lia).
  split; [exact Hrd|]. split; [exact Hmpe|].
  destruct (baseline_cache_entries (F := Symbolic.term) (Symbolic.small_config 4)
              Hrd Hmpe) as (cache & Hc & Hl & _).
  exists cache. split; [exact Hc|exact Hl].
Defined.

Lemma linear_cache_rows_witness :
  0 <= rotary_dim (Symbolic.small_config 4) /\
  0 <= arange_len (fmul (of_int (max_position_embeddings (Symbolic.small_config 4)))
                        (Symbolic.TInt 2)) /\
  exists cache : list (list Symbolic.term),
    LinearScalingRotaryEmbedding_init (Symbolic.small_config 4) (Symbolic.TInt 2)
      = Ok cache /\
    Z.of_nat (length cache) = 8.
Proof.
  assert (Hrd : 0 <= rotary_dim (Symbolic.small_config 4)) by (cbn; lia).
  assert (Hn : 0 <= arange_len
                      (fmul (of_int (max_position_embeddings (Symbolic.small_config 4)))
                            (Symbolic.TInt 2))) by (cbn; lia).
  split; [exact Hrd|]. split; [exact Hn|].
  destruct (linear_cache_rows (Symbolic.small_config 4) (Symbolic.TInt 2) Hrd Hn)
    as (cache & Hc & Hl & _).
  exists cache. split; [exact Hc|exact Hl].
Defined.

Lemma ntk_cache_rows_witness :
  max_position_embeddings (Symbolic.small_config 4) <> 0 /\
  rotary_dim (Symbolic.small_config 4) <> 2 /\
  0 <= rotary_dim (Symbolic.small_config 4) /\
  0 <= arange_len (fmul (of_int (max_position_embeddings (Symbolic.small_config 4)))
                        (Symbolic.TInt 2)) /\
  exists cache : list (list Symbolic.term),
    DynamicNTKScalingRotaryEmbedding_init (Symbolic.small_config 4) (Symbolic.TInt 2)
      = Ok cache /\
    Z.of_nat (length cache) = 8.
Proof.
  assert (Hmpe : max_position_embeddings (Symbolic.small_config 4) <> 0)
    by (cbn; lia).
  assert (Hrd2 : rotary_dim (Symbolic.small_config 4) <> 2) by (cbn; lia).
  assert (Hrd : 0 <= rotary_dim (Symbolic.small_config 4)) by (cbn; lia).
  assert (Hn : 0 <= arange_len
                      (fmul (of_int (max_position_embeddings (Symbolic.small_config 4)))
                            (Symbolic.TInt 2))) by (cbn; lia).
  split; [exact Hmpe|]. split; [exact Hrd2|]. split; [exact Hrd|]. split; [exact Hn|].
  destruct (ntk_cache_rows (Symbolic.small_config 4) (Symbolic.TInt 2)
              Hmpe Hrd2 Hrd Hn) as (cache & Hc & Hl & _).
  exists cache. split; [exact Hc|exact Hl].
Defined.

(* ================================================================== *)
(** * Scaling by one *)
(* ================================================================== *)

(** The laws of float arithmetic the next statements rest on.  IEEE
    floats satisfy each of them for every value; what a statement needs
    about one particular number (a conversion that is exact, a length that
    [torch.arange] counts) is a hypothesis of that statement. *)
Section IdentityScaling.
Context {F : Type} `{FloatOps F}.
Hypothesis fmul_1_r : forall x : F, fmul x (of_int 1) = x.
Hypothesis fmul_1_l : forall x : F, fmul (of_int 1) x = x.
Hypothesis fdiv_1_r : forall x : F, fdiv x (of_int 1) = x.
Hypothesis fpow_1_l : forall e : F, fpow (of_int 1) e = of_int 1.
Hypothesis fsub_same : fsub (of_int 1) (of_int 1) = of_int 0.
Hypothesis fsub_0_r : forall x : F, fsub x (of_int 0) = x.

Lemma arange_float_of_int (n : Z) :
  (0 <= n -> arange_len (of_int n) = n) ->
  (n < 0 -> arange_len (of_int n) < 0) ->
  Torch.arange 0 (arange_len (of_int n)) 1 = Torch.arange 0 n 1.
Proof.
  intros Hpos Hneg. destruct (Z.lt_ge_cases n 0) as [Hn|Hn].
  - rewrite !arange_negative by auto. reflexivity.
  - rewrite Hpos by exact Hn. reflexivity.
Qed.

(** X7.  With the scaling factor 1.0 the linear-scaling constructor does
    what the baseline constructor does, the same table or the same
    exception, on every configuration whose [max_position_embeddings] the
    float conversion keeps: [torch.arange] of the converted bound counts
    [max_position_embeddings] elements, and raises when it is negative. *)
Theorem linear_scaling_by_one (cfg : Config) :
  (0 <= max_position_embeddings cfg ->
     arange_len (of_int (max_position_embeddings cfg)) = max_position_embeddings cfg) ->
  (max_position_embeddings cfg < 0 ->
     arange_len (of_int (max_position_embeddings cfg)) < 0) ->
  LinearScalingRotaryEmbedding_init cfg (of_int 1)
  = RotaryEmbedding_init _compute_cos_sin_cache cfg.
Proof.
  intros Hpos Hneg.
  unfold LinearScalingRotaryEmbedding_init, RotaryEmbedding_init,
    linear_compute_cos_sin_cache, _compute_cos_sin_cache.
  rewrite fmul_1_r, (arange_float_of_int _ Hpos Hneg).
  destruct (_compute_inv_freq cfg (of_int (base cfg))) as [inv_freq|e];
    cbn [bind]; [|reflexivity].
  destruct (Torch.arange 0 (max_position_embeddings cfg) 1) as [t|e];
    cbn [bind]; [|reflexivity].
  rewrite (map_ext (fun ti => fdiv (of_int ti) (of_int 1)) of_int)
    by (intros a; apply fdiv_1_r).
  reflexivity.
Qed.

Lemma ntk_effective_base_one (cfg : Config) :
  fdiv (of_int (max_position_embeddings cfg)) (of_int (max_position_embeddings cfg))
    = of_int 1 ->
  ntk_effective_base cfg (of_int 1) = of_int (base cfg).
Proof.
  intros Hsame. unfold ntk_effective_base.
  rewrite fmul_1_r, fmul_1_l, Hsame.
  rewrite fsub_same, fsub_0_r, fpow_1_l, fmul_1_r. reflexivity.
Qed.

(** X8.  With the scaling factor 1.0 the fixed dynamic-NTK constructor
    does what the baseline constructor does, on every configuration that
    passes its two divisions ([max_position_embeddings] not 0,
    [rotary_dim] not 2) and whose [max_position_embeddings] the float
    conversion keeps (its quotient by itself is 1.0, and [torch.arange]
    counts it as for X7): the effective base is the base. *)
Theorem ntk_scaling_by_one (cfg : Config) :
  max_position_embeddings cfg <> 0 -> rotary_dim cfg <> 2 ->
  fdiv (of_int (max_position_embeddings cfg)) (of_int (max_position_embeddings cfg))
    = of_int 1 ->
  (0 <= max_position_embeddings cfg ->
     arange_len (of_int (max_position_embeddings cfg)) = max_position_embeddings cfg) ->
  (max_position_embeddings cfg < 0 ->
     arange_len (of_int (max_position_embeddings cfg)) < 0) ->
  DynamicNTKScalingRotaryEmbedding_init cfg (of_int 1)
  = RotaryEmbedding_init _compute_cos_sin_cache cfg.
Proof.
  intros Hmpe Hrd2 Hsame Hpos Hneg.
  pose proof (ntk_effective_base_one cfg Hsame) as Hb. unfold ntk_effective_base in Hb.
  unfold DynamicNTKScalingRotaryEmbedding_init, RotaryEmbedding_init,
    ntk_compute_cos_sin_cache, _compute_cos_sin_cache, float_div_int.
  destruct (Z.eqb_spec (max_position_embeddings cfg) 0); [contradiction|].
  cbn [bind]. rewrite true_div_ok by lia. cbn [bind].
  rewrite Hb. rewrite fmul_1_r, (arange_float_of_int _ Hpos Hneg). reflexivity.
Qed.

(** X9.  A request that does not exceed the reference length has alpha
    1, and a rebuild for it computes the rows of the baseline table: on
    the first call after construction, the rebuilt table agrees with the
    table of the constructor on every position both hold. *)
Theorem short_request_rebuilds_baseline_rows
    (cfg : Config) (seq_length true_len : Z) :
  0 <= rotary_dim cfg -> rotary_dim cfg <> 2 ->
  0 <= max_position_embeddings cfg ->
  1 <= true_len <= seq_length ->
  exists self0 self1 : Qwen F,
    Qwen_init cfg seq_length = Ok self0 /\
    _update_cos_sin_cache self0 true_len = Ok self1 /\
    _ntk_alpha_cached self1 = 1 /\
    _seq_len_cached self1 = Z.max (2 * true_len) 16 /\
    forall p, 0 <= p < max_position_embeddings cfg -> p < Z.max (2 * true_len) 16 ->
      nth_error (cos_sin_cache self1) (Z.to_nat p)
      = nth_error (cos_sin_cache self0) (Z.to_nat p).
Proof.
  intros Hrd Hrd2 Hmpe Ht.
  destruct (Qwen_init_ok (F := F) cfg seq_length Hrd Hmpe)
    as (self0 & Hinit & Hcfg & Hlen & Hcached & Halpha & Hcache).
  assert (Ha : Alpha.get_ntk_alpha (_config_seq_length self0) true_len = Ok 1).
  { rewrite Hlen, get_ntk_alpha_pos by lia. f_equal.
    apply pow2_minus_1_max1_small.
    pose proof (ceil_log2_ratio_nonpos true_len seq_length). lia. }
  assert (Hn : needs_rebuild self0 true_len 1 = true)
    by (apply needs_rebuild_iff; left; lia).
  exists self0. eexists. split; [exact Hinit|].
  split; [apply (update_rebuild _ _ _ Ha Hn); rewrite Hcfg; assumption|].
  cbn [_ntk_alpha_cached _seq_len_cached cos_sin_cache].
  split; [reflexivity|]. split; [reflexivity|].
  intros p Hp Hp'. rewrite Hcache, Hcfg.
  rewrite !table_nth by lia. rewrite fpow_1_l, fmul_1_r. reflexivity.
Qed.

End IdentityScaling.

(* ================================================================== *)
(** * The laws hold together: the reals *)
(* ================================================================== *)

Section RealFacts.
Import ExactReal.
Local Open Scope R_scope.

Lemma real_fmul_1_r : forall x : R, fmul x (of_int 1) = x.
Proof. intros x. apply Rmult_1_r. Qed.

Lemma real_fmul_1_l : forall x : R, fmul (of_int 1) x = x.
Proof. intros x. apply Rmult_1_l. Qed.

Lemma real_fdiv_1_r : forall x : R, fdiv x (of_int 1) = x.
Proof. intros x. apply Rdiv_1_r. Qed.

Lemma real_fpow_1_l : forall e : R, fpow (of_int 1) e = of_int 1.
Proof.
  intros e. change (Rpower 1 e = 1). unfold Rpower.
  rewrite ln_1, Rmult_0_r. apply exp_0.
Qed.

Lemma real_fdiv_same : forall n : Z, n <> 0%Z -> fdiv (of_int n) (of_int n) = (of_int 1 : R).
Proof.
  intros n Hn. change (IZR n / IZR n = 1). apply Rdiv_diag.
  apply not_0_IZR. exact Hn.
Qed.

Lemma real_fsub_same : fsub (of_int 1) (of_int 1) = (of_int 0 : R).
Proof. change (1 - 1 = 0). lra. Qed.

Lemma real_fsub_0_r : forall x : R, fsub x (of_int 0) = x.
Proof. intros x. change (x - 0 = x). lra. Qed.

Lemma real_arange_len_int : forall n : Z,
  (0 <= n)%Z -> arange_len (of_int n : R) = n.
Proof.
  intros n Hn. change (real_arange_len (IZR n) = n). unfold real_arange_len.
  destruct (Rlt_dec (IZR n) 0) as [Hlt|_].
  - apply lt_IZR in Hlt. lia.
  - apply Rceil_unique. lra.
Qed.

Lemma real_arange_len_negative : forall n : Z,
  (n < 0)%Z -> (arange_len (of_int n : R) < 0)%Z.
Proof.
  intros n Hn. change (real_arange_len (IZR n) < 0)%Z. unfold real_arange_len.
  destruct (Rlt_dec (IZR n) 0) as [_|Hge]; [lia|].
  contradiction Hge. apply IZR_lt. exact Hn.
Qed.

Lemma linear_scaling_by_one_witness :
  LinearScalingRotaryEmbedding_init (F := R) Symbolic.qwen_config (of_int 1)
  = RotaryEmbedding_init _compute_cos_sin_cache Symbolic.qwen_config.
Proof.
  exact (linear_scaling_by_one real_fmul_1_r real_fdiv_1_r Symbolic.qwen_config
           (real_arange_len_int _) (real_arange_len_negative _)).
Defined.

Lemma ntk_scaling_by_one_witness :
  max_position_embeddings Symbolic.qwen_config <> 0%Z /\
  rotary_dim Symbolic.qwen_config <> 2%Z /\
  DynamicNTKScalingRotaryEmbedding_init (F := R) Symbolic.qwen_config (of_int 1)
  = RotaryEmbedding_init _compute_cos_sin_cache Symbolic.qwen_config.
Proof.
  assert (Hmpe : max_position_embeddings Symbolic.qwen_config <> 0%Z)
    by (cbn; lia).
  assert (Hrd2 : rotary_dim Symbolic.qwen_config <> 2%Z) by (cbn; lia).
  split; [exact Hmpe|]. split; [exact Hrd2|].
  exact (ntk_scaling_by_one real_fmul_1_r real_fmul_1_l real_fpow_1_l
           real_fsub_same real_fsub_0_r
           Symbolic.qwen_config Hmpe Hrd2 (real_fdiv_same _ Hmpe)
           (real_arange_len_int _) (real_arange_len_negative _)).
Defined.

Lemma short_request_rebuilds_baseline_rows_witness :
  (0 <= rotary_dim Symbolic.qwen_config)%Z /\
  rotary_dim Symbolic.qwen_config <> 2%Z /\
  (0 <= max_position_embeddings Symbolic.qwen_config)%Z /\
  (1 <= 100 <= 8192)%Z /\
  exists self0 self1 : Qwen R,
    Qwen_init Symbolic.qwen_config 8192 = Ok self0 /\
    _update_cos_sin_cache self0 100 = Ok self1 /\
    _ntk_alpha_cached self1 = 1%Z.
Proof.
  assert (Hrd : (0 <= rotary_dim Symbolic.qwen_config)%Z) by (cbn; lia).
  assert (Hrd2 : rotary_dim Symbolic.qwen_config <> 2%Z) by (cbn; lia).
  assert (Hmpe : (0 <= max_position_embeddings Symbolic.qwen_config)%Z) by (cbn; lia).
  assert (Ht : (1 <= 100 <= 8192)%Z) by lia.
  split; [exact Hrd|]. split; [exact Hrd2|]. split; [exact Hmpe|]. split; [exact Ht|].
  destruct (short_request_rebuilds_baseline_rows real_fmul_1_r real_fpow_1_l
              Symbolic.qwen_config 8192 100 Hrd Hrd2 Hmpe Ht)
    as (self0 & self1 & Hi & Hu & Ha & _).
  exists self0, self1. split; [exact Hi|]. split; [exact Hu|exact Ha].
Defined.

End RealFacts.

(* ================================================================== *)
(** * Further properties of the recompute policy *)
(* ================================================================== *)

Section PolicyMore.
Context {F : Type} `{FloatOps F}.
Implicit Types self : Qwen F.

Lemma update_negative_rotary_dim self t a :
  Alpha.get_ntk_alpha (_config_seq_length self) t = Ok a ->
  needs_rebuild self t a = true ->
  rotary_dim (config self) < 0 ->
  _update_cos_sin_cache self t = Raise RuntimeError.
Proof.
  intros Ha Hn Hrd. unfold _update_cos_sin_cache. rewrite Ha. cbn [bind].
  rewrite Hn. rewrite true_div_ok by lia. cbn [bind].
  rewrite compute_inv_freq_negative by exact Hrd. reflexivity.
Qed.

Lemma update_alpha_raises self t e :
  Alpha.get_ntk_alpha (_config_seq_length self) t = Raise e ->
  _update_cos_sin_cache self t = Raise e.
Proof. intros Ha. unfold _update_cos_sin_cache. rewrite Ha. reflexivity. Qed.

Lemma update_value_error self t :
  _config_seq_length self <> 0 -> t * _config_seq_length self <= 0 ->
  _update_cos_sin_cache self t = Raise ValueError.
Proof.
  intros Hr Hq. apply update_alpha_raises. unfold Alpha.get_ntk_alpha.
  destruct (Z.eqb_spec (_config_seq_length self) 0); [contradiction|].
  destruct (Z.leb_spec (t * _config_seq_length self) 0); [reflexivity|lia].
Qed.

(** A rebuild that returns, read backwards. *)
Lemma update_rebuild_inv self t a self' :
  Alpha.get_ntk_alpha (_config_seq_length self) t = Ok a ->
  needs_rebuild self t a = true ->
  _update_cos_sin_cache self t = Ok self' ->
  0 <= rotary_dim (config self) /\ rotary_dim (config self) <> 2 /\
  config self' = config self /\
  _seq_len_cached self' = Z.max (2 * t) 16 /\
  _ntk_alpha_cached self' = a /\
  cos_sin_cache self' =
    map (map to_dtype)
      (cos_sin_table
         (map of_int (map Z.of_nat (seq 0 (Z.to_nat (Z.max (2 * t) 16)))))
         (inv_freq_of (rotary_dim (config self)) (effective_base (config self) a))).
Proof.
  intros Ha Hn Hu.
  destruct (Z.eq_dec (rotary_dim (config self)) 2) as [E|Hrd2].
  { rewrite (update_rotary_dim_2 _ _ _ Ha Hn E) in Hu. discriminate. }
  destruct (Z.lt_ge_cases (rotary_dim (config self)) 0) as [Hneg|Hrd].
  { rewrite (update_negative_rotary_dim _ _ _ Ha Hn Hneg) in Hu. discriminate. }
  rewrite (update_rebuild _ _ _ Ha Hn Hrd Hrd2) in Hu. injection Hu as <-.
  cbn [config _seq_len_cached _ntk_alpha_cached cos_sin_cache].
  repeat split; assumption.
Qed.

Lemma cache_describes_update self t self' :
  cache_describes self -> _update_cos_sin_cache self t = Ok self' ->
  cache_describes self'.
Proof.
  intros Hd Hu.
  destruct (update_post _ _ _ Hu) as (a & Ha & _ & _ & _ & Hsame & _).
  destruct (needs_rebuild self t a) eqn:Hn.
  - destruct (update_rebuild_inv _ _ _ _ Ha Hn Hu)
      as (_ & _ & Hcfg & Hlen & Hal & Hcache).
    intros p Hp. rewrite Hcache, Hcfg, Hal. rewrite Hlen in Hp.
    apply table_nth. exact Hp.
  - rewrite (Hsame eq_refl). exact Hd.
Qed.

Lemma cache_describes_init (cfg : Config) (seq_length : Z) (self0 : Qwen F) :
  Qwen_init cfg seq_length = Ok self0 -> cache_describes self0.
Proof.
  unfold Qwen_init. intros Hi.
  destruct (RotaryEmbedding_init _compute_cos_sin_cache cfg) as [cache|e];
    cbn [bind] in Hi; [|discriminate].
  injection Hi as <-. intros p Hp. cbn [_seq_len_cached] in Hp. lia.
Qed.

Lemma cache_describes_calls (lens : list Z) : forall self,
  cache_describes self ->
  Forall (fun c => cache_describes (snd c)) (update_calls self lens).
Proof.
  induction lens as [|t rest IH]; intros self Hd; cbn [update_calls];
    [constructor|].
  destruct (_update_cos_sin_cache self t) as [self'|e] eqn:Hu.
  - pose proof (cache_describes_update _ _ _ Hd Hu) as Hd'.
    constructor; [exact Hd'|apply IH; exact Hd'].
  - constructor; [exact Hd|apply IH; exact Hd].
Qed.


End PolicyMore.

(** X12.  The cache metadata describes the table, after construction and
    for ever after: every row below [_seq_len_cached] is the row of its
    index for the effective base of [_ntk_alpha_cached].  The constructor
    establishes this (with [_seq_len_cached = 0]), every call of the
    recompute policy that returns keeps it, and so does every instance
    reached along a sequence of calls, exceptions included. *)
Theorem cache_describes_invariant {F : Type} `{FloatOps F} :
  (forall cfg seq_length (self0 : Qwen F),
     Qwen_init cfg seq_length = Ok self0 -> cache_describes self0) /\
  (forall (self self' : Qwen F) true_len,
     cache_describes self -> _update_cos_sin_cache self true_len = Ok self' ->
     cache_describes self') /\
  (forall (self : Qwen F) lens,
     cache_describes self ->
     Forall (fun c => cache_describes (snd c)) (update_calls self lens)).
Proof.
  split; [|split].
  - intros cfg r self0. apply cache_describes_init.
  - intros self self' t. apply cache_describes_update.
  - intros self lens. apply cache_describes_calls.
Qed.





(** X15.  When the recompute policy returns and what it raises.  The
    call raises what [get_ntk_alpha] raises: [ZeroDivisionError] for a
    reference length 0, [ValueError] for a requested length whose quotient
    by the reference length is not positive.  Otherwise it returns exactly
    when there is nothing to rebuild, or [rotary_dim] is neither negative
    nor 2; a rebuild raises [ZeroDivisionError] for [rotary_dim = 2] and
    [RuntimeError] for a negative [rotary_dim]. *)
Theorem update_cos_sin_cache_returns {F : Type} `{FloatOps F}
    (self : Qwen F) (true_len : Z) :
  (_config_seq_length self = 0 ->
     _update_cos_sin_cache self true_len = Raise ZeroDivisionError) /\
  (_config_seq_length self <> 0 -> true_len * _config_seq_length self <= 0 ->
     _update_cos_sin_cache self true_len = Raise ValueError) /\
  (forall alpha,
     Alpha.get_ntk_alpha (_config_seq_length self) true_len = Ok alpha ->
     ((exists self', _update_cos_sin_cache self true_len = Ok self') <->
        needs_rebuild self true_len alpha = false \/
        (0 <= rotary_dim (config self) /\ rotary_dim (config self) <> 2)) /\
     (needs_rebuild self true_len alpha = true -> rotary_dim (config self) = 2 ->
        _update_cos_sin_cache self true_len = Raise ZeroDivisionError) /\
     (needs_rebuild self true_len alpha = true -> rotary_dim (config self) < 0 ->
        _update_cos_sin_cache self true_len = Raise RuntimeError)).
Proof.
  split; [|split].
  - intros Hr. apply update_alpha_raises. unfold Alpha.get_ntk_alpha.
    rewrite Hr. reflexivity.
  - apply update_value_error.
  - intros alpha Ha. split; [split|split].
    + intros [self' Hu].
      destruct (needs_rebuild self true_len alpha) eqn:Hn; [right|left; reflexivity].
      destruct (update_rebuild_inv _ _ _ _ Ha Hn Hu) as (Hrd & Hrd2 & _).
      split; assumption.
    + intros [Hn|[Hrd Hrd2]].
      * exists self. apply (update_reuse _ _ _ Ha Hn).
      * destruct (needs_rebuild self true_len alpha) eqn:Hn.
        -- eexists. apply (update_rebuild _ _ _ Ha Hn Hrd Hrd2).
        -- exists self. apply (update_reuse _ _ _ Ha Hn).
    + intros Hn Hrd. apply (update_rotary_dim_2 _ _ _ Ha Hn Hrd).
    + intros Hn Hrd. apply (update_negative_rotary_dim _ _ _ Ha Hn Hrd).
Qed.

(* ================================================================== *)
(** * Further properties of forward *)
(* ================================================================== *)

Section SliceFacts.
Import Torch.

Lemma adjust_index_range (n i : Z) : 0 <= n -> 0 <= adjust_index n i <= n.
Proof.
  intros Hn. unfold adjust_index.
  destruct (Z.ltb_spec i 0);
    repeat match goal with
           | |- context [if ?a <? ?b then _ else _] => destruct (Z.ltb_spec a b)
           end; lia.
Qed.

(** A slice never leaves the tensor, whatever its bounds. *)
Lemma slice_within (n : nat) (start : Z) (stop : option Z) :
  (fst (slice n start stop) + snd (slice n start stop) <= n)%nat.
Proof.
  unfold slice. cbn [fst snd].
  pose proof (adjust_index_range (Z.of_nat n) start ltac:(lia)) as Hlo.
  destruct stop as [e|].
  - pose proof (adjust_index_range (Z.of_nat n) e ltac:(lia)) as Hhi. lia.
  - lia.
Qed.

Lemma view_rows_incl {A} (v : view) (buf : list A) (x : A) :
  In x (view_rows v buf) -> In x buf.
Proof.
  unfold view_rows. intros Hin.
  rewrite <- (firstn_skipn (fst v) buf). apply in_or_app. right.
  rewrite <- (firstn_skipn (snd v) (skipn (fst v) buf)). apply in_or_app. left.
  exact Hin.
Qed.

Lemma view_rows_whole {A} (buf : list A) :
  view_rows (slice (length buf) 0 None) buf = buf.
Proof.
  rewrite slice_to_end by lia. unfold view_rows. cbn [fst snd].
  replace (Z.to_nat 0) with 0%nat by reflexivity. cbn [skipn].
  apply firstn_all2. lia.
Qed.

Lemma slice_whole (n : nat) : slice n 0 None = (0%nat, n).
Proof.
  rewrite slice_to_end by lia. f_equal. lia.
Qed.

End SliceFacts.

Section ForwardMore.
Context {F : Type} `{FloatOps F} `{RotaryKernel F}.
Implicit Types self : Qwen F.
Implicit Types st : LoopState F.

Lemma rotary_embedding_lengths (positions : list Z) (qv kv : Torch.view) self
    (q k : list (list F)) :
  (fst qv + snd qv <= length q)%nat -> (fst kv + snd kv <= length k)%nat ->
  length (fst (rotary_embedding positions qv kv self q k)) = length q /\
  length (snd (rotary_embedding positions qv kv self q k)) = length k.
Proof.
  intros Hq Hk. unfold rotary_embedding. cbn [fst snd]. destruct qv as [qlo qlen].
  cbn [fst snd] in *. split; apply rewrite_rows_length; lia.
Qed.

Lemma forward_loop_shapes (positions : list Z) (is_continue : bool) (batch_size : Z)
    (seq_lens : list Z) : forall i st,
  length (query_buf (snd (forward_loop positions is_continue batch_size i seq_lens st)))
    = length (query_buf st) /\
  length (key_buf (snd (forward_loop positions is_continue batch_size i seq_lens st)))
    = length (key_buf st).
Proof.
  induction seq_lens as [|seq_len rest IH]; intros i st; cbn [forward_loop].
  - split; reflexivity.
  - destruct (_update_cos_sin_cache (self_ st) seq_len) as [self'|e];
      [|split; reflexivity].
    match goal with
    | |- context [forward_loop _ _ _ _ rest ?s] => destruct (IH (i + 1) s) as [Eq Ek]
    end.
    rewrite Eq, Ek. cbn [query_buf key_buf].
    apply rotary_embedding_lengths; apply slice_within.
Qed.

(** The loop over a prefix of samples whose recompute calls all return. *)
Lemma forward_loop_good (positions : list Z) (is_continue : bool) (batch_size : Z)
    (good : list Z) : forall i st rest self_k,
  update_all (self_ st) good = Ok self_k ->
  exists st1,
    forward_loop positions is_continue batch_size i (good ++ rest) st
      = forward_loop positions is_continue batch_size
          (i + Z.of_nat (length good)) rest st1 /\
    self_ st1 = self_k /\
    length (query_list st1) = (length (query_list st) + length good)%nat /\
    length (key_list st1) = (length (key_list st) + length good)%nat.
Proof.
  induction good as [|seq_len good IH]; intros i st rest self_k Hall.
  - cbn [update_all] in Hall. injection Hall as <-.
    exists st. cbn [app length]. rewrite Z.add_0_r, !Nat.add_0_r. auto.
  - cbn [update_all] in Hall.
    destruct (_update_cos_sin_cache (self_ st) seq_len) as [self'|e] eqn:Hu;
      cbn [bind] in Hall; [|discriminate].
    cbn [app forward_loop]. rewrite Hu.
    match goal with
    | |- context [forward_loop _ _ _ _ (good ++ rest) ?s] =>
        destruct (IH (i + 1) s rest self_k Hall) as (st1 & Hloop & Hself & Lq & Lk)
    end.
    exists st1. rewrite Hloop. cbn [query_list key_list] in Lq, Lk.
    rewrite length_app in Lq, Lk. cbn [length] in Lq, Lk |- *.
    split; [f_equal; lia|]. split; [exact Hself|]. split; lia.
Qed.

Lemma update_all_well_configured (lens : list Z) : forall self,
  well_configured self -> Forall (fun l => 1 <= l) lens ->
  exists self_n, update_all self lens = Ok self_n /\ well_configured self_n.
Proof.
  induction lens as [|t rest IH]; intros self Hwf Hall; cbn [update_all].
  - exists self. auto.
  - apply Forall_cons_iff in Hall. destruct Hall as [Ht Hrest].
    destruct Hwf as (Hr & Hrd & Hrd2).
    destruct (update_total self t Hr Ht Hrd Hrd2) as [self' Hu]. rewrite Hu.
    cbn [bind]. apply IH; [|exact Hrest].
    apply (well_configured_update self t); [repeat split; assumption|exact Hu].
Qed.

Lemma first_short_length (lens : list Z) :
  ~ Forall (fun l => 1 <= l) lens ->
  exists good bad rest,
    lens = good ++ bad :: rest /\ Forall (fun l => 1 <= l) good /\ bad <= 0.
Proof.
  induction lens as [|t rest IH]; intros Hno.
  - contradiction Hno. constructor.
  - destruct (Z.le_gt_cases 1 t) as [Ht|Ht].
    + destruct IH as (good & bad & rest' & -> & Hg & Hb).
      { intros Hall. apply Hno. constructor; assumption. }
      exists (t :: good), bad, rest'. repeat split; [constructor; assumption|exact Hb].
    + exists [], t, rest. repeat split; [constructor|lia].
Qed.

Lemma forward_raises_at (self : Qwen F) (positions : list Z) (query key : list (list F))
    (input_metadata : InputMetadata) (is_continue : bool)
    (good : list Z) (bad : Z) (rest : list Z) (self_k : Qwen F) (e : exn) :
  select_seq_lens input_metadata = (is_continue, good ++ bad :: rest) ->
  update_all self good = Ok self_k ->
  _update_cos_sin_cache self_k bad = Raise e ->
  returned (forward self positions query key input_metadata) = Raise e /\
  self_after (forward self positions query key input_metadata) = self_k.
Proof.
  intros Hsel Hgood Hbad. unfold forward. rewrite Hsel.
  match goal with
  | |- context [forward_loop _ _ ?bs 0 _ ?s] =>
      destruct (forward_loop_good positions is_continue bs good 0 s (bad :: rest)
                  self_k Hgood) as (st1 & Hloop & Hself & _)
  end.
  rewrite Hloop.
  rewrite (forward_loop_first_raises positions is_continue _ _ bad rest st1 e)
    by (rewrite Hself; exact Hbad).
  cbn [returned self_after]. split; [reflexivity|exact Hself].
Qed.

Lemma forward_returns_after (self : Qwen F) (positions : list Z)
    (query key : list (list F)) (input_metadata : InputMetadata)
    (is_continue : bool) (seq_lens : list Z) (self_n : Qwen F) :
  select_seq_lens input_metadata = (is_continue, seq_lens) ->
  seq_lens <> [] ->
  update_all self seq_lens = Ok self_n ->
  (exists qk, returned (forward self positions query key input_metadata) = Ok qk) /\
  self_after (forward self positions query key input_metadata) = self_n.
Proof.
  intros Hsel Hne Hall. unfold forward. rewrite Hsel.
  match goal with
  | |- context [forward_loop _ _ ?bs 0 _ ?s] =>
      destruct (forward_loop_good positions is_continue bs seq_lens 0 s []
                  self_n Hall) as (st1 & Hloop & Hself & Lq & Lk)
  end.
  rewrite app_nil_r in Hloop. rewrite Hloop. cbn [forward_loop].
  cbn [returned self_after query_list key_list length] in *.
  split; [|exact Hself].
  destruct (query_list st1) as [|qv ql]; [destruct seq_lens; [contradiction|discriminate]|].
  destruct (key_list st1) as [|kv kl]; [destruct seq_lens; [contradiction|discriminate]|].
  cbn [map Torch.cat bind]. eexists. reflexivity.
Qed.

End ForwardMore.

(** X16.  When [forward] returns and what it raises, on a
    well-configured instance and on calls the kernel's contract covers:
    positions, query and key of one length, which hold the declared rows
    of the samples the loop reaches (all of them when no length is below
    1, those before the first such length otherwise).  It returns exactly
    when the batch is not empty and every length is at least 1; it raises
    [RuntimeError] on an empty batch, and [ValueError] as soon as a length
    is 0 or negative. *)
Theorem forward_returns_iff {F : Type} `{FloatOps F} `{RotaryKernel F}
    (self : Qwen F) (positions : list Z) (query key : list (list F))
    (input_metadata : InputMetadata) (is_continue : bool) (seq_lens : list Z) :
  select_seq_lens input_metadata = (is_continue, seq_lens) ->
  well_configured self ->
  length positions = length query -> length key = length query ->
  declared_rows is_continue (positive_prefix seq_lens) <= Z.of_nat (length query) ->
  ((exists qk, returned (forward self positions query key input_metadata) = Ok qk) <->
     seq_lens <> [] /\ Forall (fun l => 1 <= l) seq_lens) /\
  (seq_lens = [] ->
     returned (forward self positions query key input_metadata) = Raise RuntimeError) /\
  (~ Forall (fun l => 1 <= l) seq_lens ->
     returned (forward self positions query key input_metadata) = Raise ValueError).
Proof.
  intros Hsel Hwf _ _ _.
  assert (Hempty : seq_lens = [] ->
            returned (forward self positions query key input_metadata)
            = Raise RuntimeError).
  { intros ->. unfold forward. rewrite Hsel. reflexivity. }
  assert (Hshort : ~ Forall (fun l => 1 <= l) seq_lens ->
            returned (forward self positions query key input_metadata)
            = Raise ValueError).
  { intros Hno.
    destruct (first_short_length seq_lens Hno) as (good & bad & rest & -> & Hg & Hb).
    destruct (update_all_well_configured good self Hwf Hg) as (self_k & Hall & Hwfk).
    apply (forward_raises_at self positions query key input_metadata is_continue
             good bad rest self_k ValueError Hsel Hall).
    destruct Hwfk as (Hr & _).
    apply update_value_error; nia. }
  split; [split|split; assumption].
  - intros [qk Hret]. split.
    + intros E. rewrite (Hempty E) in Hret. discriminate.
    + destruct (Forall_dec (fun l => 1 <= l)
                  (fun l => Z_le_dec 1 l) seq_lens) as [Hall|Hno]; [exact Hall|].
      rewrite (Hshort Hno) in Hret. discriminate.
  - intros [Hne Hall].
    destruct (update_all_well_configured seq_lens self Hwf Hall) as (self_n & Hu & _).
    apply (forward_returns_after self positions query key input_metadata
             is_continue seq_lens self_n Hsel Hne Hu).
Qed.

Lemma forward_returns_iff_witness :
  select_seq_lens Symbolic.example_decode = (true, [10; 200; 9999]) /\
  well_configured (Symbolic.small_qwen 4 8192 0 1) /\
  declared_rows true (positive_prefix [10; 200; 9999]) <= 3 /\
  exists qk,
    returned (forward (Symbolic.small_qwen 4 8192 0 1) [9; 199; 9998]
                [[Symbolic.TInt 1]; [Symbolic.TInt 2]; [Symbolic.TInt 3]]
                [[Symbolic.TInt 4]; [Symbolic.TInt 5]; [Symbolic.TInt 6]]
                Symbolic.example_decode) = Ok qk.
Proof.
  assert (Hsel : select_seq_lens Symbolic.example_decode = (true, [10; 200; 9999]))
    by reflexivity.
  assert (Hwf : well_configured (Symbolic.small_qwen 4 8192 0 1))
    by (apply small_qwen_well_configured; lia).
  assert (Hrows : declared_rows true (positive_prefix [10; 200; 9999]) <= 3)
    by (vm_compute; discriminate).
  split; [exact Hsel|]. split; [exact Hwf|]. split; [exact Hrows|].
  apply (forward_returns_iff (Symbolic.small_qwen 4 8192 0 1) [9; 199; 9998]
           [[Symbolic.TInt 1]; [Symbolic.TInt 2]; [Symbolic.TInt 3]]
           [[Symbolic.TInt 4]; [Symbolic.TInt 5]; [Symbolic.TInt 6]]
           Symbolic.example_decode true [10; 200; 9999] Hsel Hwf
           eq_refl eq_refl Hrows).
  split; [discriminate|repeat constructor; lia].
Defined.

(** X17.  An exception in the middle of a batch is not rolled back.  If
    the recompute calls of the first samples return and the call of the
    next sample raises, [forward] raises that exception and the instance is
    left with the cache of the last sample before it. *)
Theorem forward_failure_keeps_cache {F : Type} `{FloatOps F} `{RotaryKernel F}
    (self : Qwen F) (positions : list Z) (query key : list (list F))
    (input_metadata : InputMetadata) (is_continue : bool)
    (good : list Z) (bad : Z) (rest : list Z) (self_k : Qwen F) (e : exn) :
  select_seq_lens input_metadata = (is_continue, good ++ bad :: rest) ->
  update_all self good = Ok self_k ->
  _update_cos_sin_cache self_k bad = Raise e ->
  let out := forward self positions query key input_metadata in
  returned out = Raise e /\
  self_after out = self_k /\
  length (query_after out) = length query /\
  length (key_after out) = length key.
Proof.
  intros Hsel Hgood Hbad out.
  destruct (forward_raises_at self positions query key input_metadata is_continue
              good bad rest self_k e Hsel Hgood Hbad) as [Hret Hself].
  split; [exact Hret|]. split; [exact Hself|].
  unfold out, forward. rewrite Hsel.
  match goal with
  | |- context [forward_loop ?p ?c ?bs 0 ?l ?s] =>
      pose proof (forward_loop_shapes p c bs l 0 s) as Hshape;
      destruct (forward_loop p c bs 0 l s) as [raised st]
  end.
  exact Hshape.
Qed.

Lemma forward_failure_keeps_cache_witness :
  exists self_k : Qwen Symbolic.term,
    select_seq_lens {| prompt_lens := [2; 0; 3]; context_lens := [] |}
      = (false, [2] ++ 0 :: [3]) /\
    update_all (Symbolic.small_qwen 4 8 0 1) [2] = Ok self_k /\
    _update_cos_sin_cache self_k 0 = Raise ValueError /\
    _seq_len_cached self_k = 16 /\
    self_after (forward (Symbolic.small_qwen 4 8 0 1) [0; 1; 0; 1; 2]
                  (Symbolic.example_rows 0) (Symbolic.example_rows 100)
                  {| prompt_lens := [2; 0; 3]; context_lens := [] |}) = self_k.
Proof.
  destruct (update_all (Symbolic.small_qwen 4 8 0 1) [2]) as [self_k|e] eqn:Hall;
    [|vm_compute in Hall; discriminate].
  assert (Hsel : select_seq_lens {| prompt_lens := [2; 0; 3]; context_lens := [] |}
                 = (false, [2] ++ 0 :: [3])) by reflexivity.
  assert (Hc : _seq_len_cached self_k = 16).
  { vm_compute in Hall. injection Hall as <-. reflexivity. }
  assert (Hbad : _update_cos_sin_cache self_k 0 = Raise ValueError).
  { vm_compute in Hall. injection Hall as <-. reflexivity. }
  exists self_k. split; [exact Hsel|]. split; [reflexivity|]. split; [exact Hbad|].
  split; [exact Hc|].
  apply (forward_failure_keeps_cache (Symbolic.small_qwen 4 8 0 1) [0; 1; 0; 1; 2]
           (Symbolic.example_rows 0) (Symbolic.example_rows 100)
           {| prompt_lens := [2; 0; 3]; context_lens := [] |} false [2] 0 [3]
           self_k ValueError Hsel Hall Hbad).
Defined.

(** X18.  Whatever the metadata, the lengths and the shapes of the
    buffers, and whether it returns or raises, [forward] leaves the
    caller's [query] and [key] with the number of rows they had; and when
    it returns, every row of the returned buffers is a row of the caller's
    buffer after the call. *)
Theorem forward_preserves_shapes {F : Type} `{FloatOps F} `{RotaryKernel F}
    (self : Qwen F) (positions : list Z) (query key : list (list F))
    (input_metadata : InputMetadata) :
  let out := forward self positions query key input_metadata in
  length (query_after out) = length query /\
  length (key_after out) = length key /\
  forall q' k', returned out = Ok (q', k') ->
    (forall row, In row q' -> In row (query_after out)) /\
    (forall row, In row k' -> In row (key_after out)).
Proof.
  unfold forward.
  destruct (select_seq_lens input_metadata) as [is_continue seq_lens].
  match goal with
  | |- context [forward_loop ?p ?c ?bs 0 ?l ?s] =>
      pose proof (forward_loop_shapes p c bs l 0 s) as Hshape;
      destruct (forward_loop p c bs 0 l s) as [raised st]
  end.
  cbn [snd query_buf key_buf] in Hshape. destruct Hshape as [Lq Lk].
  cbv zeta. cbn [query_after key_after returned].
  split; [exact Lq|]. split; [exact Lk|].
  intros q' k' Hret. destruct raised as [e|]; [discriminate|].
  assert (Hcat : forall (buf : list (list F)) views rows,
            Torch.cat (map (fun v => Torch.view_rows v buf) views) = Ok rows ->
            forall row, In row rows -> In row buf).
  { intros buf views rows Hc row Hin. unfold Torch.cat in Hc.
    remember (map (fun v => Torch.view_rows v buf) views) as pieces eqn:E.
    assert (Hrows : rows = concat pieces)
      by (destruct pieces; [discriminate|injection Hc as <-; reflexivity]).
    rewrite Hrows, E in Hin.
    apply in_concat in Hin. destruct Hin as (piece & Hp & Hrow).
    apply in_map_iff in Hp. destruct Hp as (v & <- & _).
    apply (view_rows_incl v buf row Hrow). }
  destruct (Torch.cat (map (fun v => Torch.view_rows v (query_buf st)) (query_list st)))
    as [q|e] eqn:Hq; cbn [bind] in Hret; [|discriminate].
  destruct (Torch.cat (map (fun v => Torch.view_rows v (key_buf st)) (key_list st)))
    as [k|e] eqn:Hk; cbn [bind] in Hret; [|discriminate].
  injection Hret as <- <-. split.
  - apply (Hcat _ _ _ Hq).
  - apply (Hcat _ _ _ Hk).
Qed.

Lemma forward_loop_last {F : Type} `{FloatOps F} `{RotaryKernel F}
    (positions : list Z) (is_continue : bool) (batch_size i seq_len : Z)
    (st : LoopState F) (self1 : Qwen F) :
  i = batch_size - 1 ->
  _update_cos_sin_cache (self_ st) seq_len = Ok self1 ->
  forward_loop positions is_continue batch_size i [seq_len] st =
    (None,
     let qk := rotary_embedding
                 (Torch.view_rows (Torch.slice (length positions) (_prev st) None)
                    positions)
                 (Torch.slice (length (query_buf st)) (_prev st) None)
                 (Torch.slice (length (key_buf st)) (_prev st) None)
                 self1 (query_buf st) (key_buf st) in
     {| self_ := self1;
        query_buf := fst qk;
        key_buf := snd qk;
        query_list := query_list st
                        ++ [Torch.slice (length (query_buf st)) (_prev st) None];
        key_list := key_list st
                      ++ [Torch.slice (length (key_buf st)) (_prev st) None];
        _prev := if is_continue then _prev st + 1 else _prev st + seq_len |}).
Proof.
  intros Hi Hu. cbn [forward_loop]. rewrite Hu.
  rewrite (proj2 (Z.eqb_eq i (batch_size - 1)) Hi). reflexivity.
Qed.

(** X20.  On a batch of one sample the adaptive [forward] is the static
    forward run with the table the recompute policy leaves for the length
    of that sample: the slices are the whole buffers, padding included,
    whatever their lengths, and the caller's buffers hold the returned
    rows. *)
Theorem forward_single_sample {F : Type} `{FloatOps F} `{RotaryKernel F}
    (self self1 : Qwen F) (positions : list Z) (query key : list (list F))
    (input_metadata : InputMetadata) (is_continue : bool) (seq_len : Z) :
  select_seq_lens input_metadata = (is_continue, [seq_len]) ->
  _update_cos_sin_cache self seq_len = Ok self1 ->
  let out := forward self positions query key input_metadata in
  let static := RotaryEmbedding_forward (config self1) (cos_sin_cache self1)
                  positions query key in
  returned out = Ok static /\
  self_after out = self1 /\
  query_after out = fst static /\ key_after out = snd static.
Proof.
  intros Hsel Hu out static. unfold out, forward. rewrite Hsel.
  rewrite (forward_loop_last positions is_continue _ 0 seq_len _ self1)
    by (reflexivity || exact Hu).
  cbn [self_ query_buf key_buf query_list key_list _prev]. cbv zeta.
  rewrite !slice_whole.
  replace (Torch.view_rows (0%nat, length positions) positions) with positions
    by (rewrite <- (slice_whole (length positions)), view_rows_whole; reflexivity).
  set (qk := rotary_embedding positions (0%nat, length query) (0%nat, length key)
               self1 query key).
  assert (Eqk : qk = static) by reflexivity.
  destruct (rotary_embedding_lengths positions (0%nat, length query)
              (0%nat, length key) self1 query key) as [Lq Lk];
    [cbn; lia|cbn; lia|]. fold qk in Lq, Lk.
  cbn [self_after query_after key_after returned self_ query_buf key_buf
       query_list key_list app map Torch.cat concat].
  rewrite !app_nil_r.
  replace (Torch.view_rows (0%nat, length query) (fst qk)) with (fst qk)
    by (rewrite <- Lq, <- (slice_whole (length (fst qk))), view_rows_whole; reflexivity).
  replace (Torch.view_rows (0%nat, length key) (snd qk)) with (snd qk)
    by (rewrite <- Lk, <- (slice_whole (length (snd qk))), view_rows_whole; reflexivity).
  cbn [bind]. rewrite <- Eqk. destruct qk as [q' k']. repeat split.
Qed.

Lemma forward_single_sample_witness :
  exists self1 : Qwen Symbolic.term,
    select_seq_lens {| prompt_lens := [3]; context_lens := [] |} = (false, [3]) /\
    _update_cos_sin_cache (Symbolic.small_qwen 4 8 0 1) 3 = Ok self1 /\
    returned (forward (Symbolic.small_qwen 4 8 0 1) [0; 1; 2; 0]
                (Symbolic.example_rows 0) (Symbolic.example_rows 100)
                {| prompt_lens := [3]; context_lens := [] |})
    = Ok (RotaryEmbedding_forward (config self1) (cos_sin_cache self1) [0; 1; 2; 0]
            (Symbolic.example_rows 0) (Symbolic.example_rows 100)).
Proof.
  destruct (_update_cos_sin_cache (Symbolic.small_qwen 4 8 0 1) 3)
    as [self1|e] eqn:Hu; [|vm_compute in Hu; discriminate].
  assert (Hsel : select_seq_lens {| prompt_lens := [3]; context_lens := [] |}
                 = (false, [3])) by reflexivity.
  exists self1. split; [exact Hsel|]. split; [reflexivity|].
  apply (forward_single_sample (Symbolic.small_qwen 4 8 0 1) self1 [0; 1; 2; 0]
           (Symbolic.example_rows 0) (Symbolic.example_rows 100)
           {| prompt_lens := [3]; context_lens := [] |} false 3 Hsel Hu).
Defined.
